(** * Annual-report analysis pipeline: chunking, extraction merge, TF-IDF, scoring

    A shallow embedding of the extraction-and-scoring core of the
    annual-report analyser:

    - [split_text_into_chunks], [llm_extract], [llm_extract_chunked] and
      [_llm_extract_single_chunk] of [corpus_builder.py];
    - [calculate_tfidf_for_year] of [tfidf_calculator.py];
    - [calculate_company_scores] and [calculate_scores_for_year] of
      [score_calculator.py].

    Conventions of the embedding.

    - A Python [str] is a list of characters ([list ascii]); one [ascii] stands
      for one code point below 256, so [len] is [length].
    - Python floats are modelled by the real numbers [R]: [math.log] and
      [np.log1p] become [ln], [np.std] the population standard deviation with
      [sqrt].  Rounding, overflow and NaN are outside the model.
    - A Python exception is a value of [exn]; code that may raise returns an
      [outcome].
    - A [dict] is an association list in insertion order, as Python iterates it.
    - The external language service is an oracle giving the outcome of the
      n-th request for the text sent with it. *)

From Stdlib Require Import Ascii String List ZArith Arith Bool Lia.
From Stdlib Require Import Reals Lra.
Import ListNotations.

Set Implicit Arguments.

(** ** Python primitives *)

Module Py.

Definition str := list ascii.

(** A string literal. *)
Definition lit (x : string) : str := list_ascii_of_string x.

(** [a == b] on strings. *)
Fixpoint str_eqb (a b : str) : bool :=
  match a, b with
  | [], [] => true
  | c :: a', d :: b' => Ascii.eqb c d && str_eqb a' b'
  | _, _ => false
  end.

(** Exceptions carry their class name and [str(e)]. *)
Inductive exn : Type := Exn (name : string) (msg : str).

Definition exn_name (e : exn) : string := let 'Exn name _ := e in name.

(** [str(e)]. *)
Definition exn_msg (e : exn) : str := let 'Exn _ msg := e in msg.

Inductive outcome (A : Type) : Type :=
| Return (a : A)
| Raise (e : exn).

Arguments Raise {A} e.

Definition bind {A B : Type} (m : outcome A) (k : A -> outcome B) : outcome B :=
  match m with
  | Return a => k a
  | Raise e => Raise e
  end.

(** [str.isspace] on code points below 256: TAB..CR, FS..US, space, NEL, NBSP. *)
Definition isspace (c : ascii) : bool :=
  let n := nat_of_ascii c in
  ((9 <=? n) && (n <=? 13)) || ((28 <=? n) && (n <=? 32)) || (n =? 133) || (n =? 160).

Fixpoint lstrip (t : str) : str :=
  match t with
  | [] => []
  | c :: t' => if isspace c then lstrip t' else t
  end.

Definition rstrip (t : str) : str := rev (lstrip (rev t)).

(** [t.strip()]: whitespace removed at both ends. *)
Definition strip (t : str) : str := lstrip (rstrip t).

(** Truth value of a string: non-empty. *)
Definition nonempty (t : str) : bool :=
  match t with [] => false | _ :: _ => true end.

Definition newline : ascii := ascii_of_nat 10.

Definition is_newline (c : ascii) : bool := (nat_of_ascii c =? 10).

(** The paragraph separator ['\n\n']. *)
Definition nn : str := [newline; newline].

Definition cons_head (c : ascii) (ps : list str) : list str :=
  match ps with
  | [] => [[c]]
  | p :: ps' => (c :: p) :: ps'
  end.

(** [t.split('\n\n')]: the separators are found left to right, without overlap. *)
Fixpoint split_nn (t : str) : list str :=
  match t with
  | [] => [[]]
  | c :: t' =>
      match t' with
      | c' :: t'' =>
          if is_newline c && is_newline c' then [] :: split_nn t''
          else cons_head c (split_nn t')
      | [] => cons_head c (split_nn t')
      end
  end.

(** ['\n\n'.join(ps)]. *)
Fixpoint join_nn (ps : list str) : str :=
  match ps with
  | [] => []
  | [p] => p
  | p :: ps' => p ++ nn ++ join_nn ps'
  end.

(** [range(0, stop, step)]. *)
Definition range0 (stop : nat) (step : Z) : outcome (list nat) :=
  if (step =? 0)%Z then
    Raise (Exn "ValueError" (lit "range() arg 3 must not be zero"))
  else if (step <? 0)%Z then Return []
  else
    let k := Z.to_nat step in
    Return (map (fun j => j * k) (seq 0 ((stop + k - 1) / k))).

(** [t[i:i+n]] for [0 <= i] and [0 < n]. *)
Definition slice (t : str) (i n : nat) : str := firstn n (skipn i t).

(** [c.lower()] on code points below 256: A..Z and the accented capitals
    U+00C0..U+00DE (the multiplication sign U+00D7 apart) move up by 32. *)
Definition lower_char (c : ascii) : ascii :=
  let n := nat_of_ascii c in
  if ((65 <=? n) && (n <=? 90))
     || ((192 <=? n) && (n <=? 222) && negb (n =? 215))
  then ascii_of_nat (n + 32) else c.

Definition lower (t : str) : str := map lower_char t.

(** [t.startswith(sub)]. *)
Fixpoint startswith (t sub : str) : bool :=
  match sub, t with
  | [], _ => true
  | _ :: _, [] => false
  | c :: sub', d :: t' => Ascii.eqb c d && startswith t' sub'
  end.

(** [sub in t]. *)
Fixpoint contains (t sub : str) : bool :=
  startswith t sub
  || match t with
     | [] => false
     | _ :: t' => contains t' sub
     end.

(** [t.count(sub)]: occurrences found left to right without overlap; [skip]
    characters of the last occurrence are still to be passed. *)
Fixpoint count_from (t sub : str) (skip : nat) : nat :=
  match t with
  | [] => match skip with
          | 0 => if startswith [] sub then 1 else 0
          | S _ => 0
          end
  | _ :: t' =>
      match skip with
      | S k => count_from t' sub k
      | 0 => if startswith t sub then S (count_from t' sub (length sub - 1))
             else count_from t' sub 0
      end
  end.

Definition count (t sub : str) : nat := count_from t sub 0.

(** [len(t.split())]: the number of maximal runs of non-whitespace. *)
Fixpoint count_words_from (t : str) (in_word : bool) : nat :=
  match t with
  | [] => 0
  | c :: t' =>
      if isspace c then count_words_from t' false
      else (if in_word then 0 else 1) + count_words_from t' true
  end.

Definition count_words (t : str) : nat := count_words_from t false.

(** [" ".join(ts)]. *)
Fixpoint join_space (ts : list str) : str :=
  match ts with
  | [] => []
  | [t] => t
  | t :: ts' => t ++ lit " " ++ join_space ts'
  end.

(** A [dict] with string keys, in insertion order. *)
Definition dict (V : Type) : Type := list (str * V).

Fixpoint dict_get {V : Type} (d : dict V) (k : str) : option V :=
  match d with
  | [] => None
  | (k', v) :: d' => if str_eqb k' k then Some v else dict_get d' k
  end.

(** [d[k] = v]: an existing key keeps its place. *)
Fixpoint dict_set {V : Type} (d : dict V) (k : str) (v : V) : dict V :=
  match d with
  | [] => [(k, v)]
  | (k', v') :: d' =>
      if str_eqb k' k then (k', v) :: d' else (k', v') :: dict_set d' k v
  end.

End Py.

Import Py.

Notation "x <- m ;; k" := (bind m (fun x => k))
  (at level 61, m at next level, right associativity).

(** ** The chunker ([corpus_builder.py]) *)

Module Chunker.

(** [if current_chunk: chunks.append(current_chunk.strip())]. *)
Definition flush (chunks : list str) (current_chunk : str) : list str :=
  if nonempty current_chunk then chunks ++ [strip current_chunk] else chunks.

(** One iteration of [for para in paragraphs], on the pair
    [(chunks, current_chunk)]. *)
Definition chunk_para (max_chars : Z) (st : list str * str) (para : str)
  : outcome (list str * str) :=
  let '(chunks, current_chunk) := st in
  if (max_chars <? Z.of_nat (length para))%Z then
    idx <- range0 (length para) max_chars ;;
    Return (flush chunks current_chunk
              ++ map (fun i => slice para i (Z.to_nat max_chars)) idx, [])
  else if (Z.of_nat (length current_chunk + length para + 2) <=? max_chars)%Z then
    Return (chunks, current_chunk ++ para ++ nn)
  else
    Return (flush chunks current_chunk, para ++ nn).

Fixpoint chunk_loop (max_chars : Z) (st : list str * str) (paragraphs : list str)
  : outcome (list str * str) :=
  match paragraphs with
  | [] => Return st
  | para :: rest =>
      st' <- chunk_para max_chars st para ;;
      chunk_loop max_chars st' rest
  end.

Definition split_text_into_chunks (text : str) (max_tokens : Z) : outcome (list str) :=
  let max_chars := (max_tokens * 4)%Z in
  if (Z.of_nat (length text) <=? max_chars)%Z then Return [text]
  else
    st <- chunk_loop max_chars ([], []) (split_nn text) ;;
    Return (flush (fst st) (snd st)).

(** [estimate_tokens]: [len(text) // 4]. *)
Definition estimate_tokens (text : str) : Z := (Z.of_nat (length text) / 4)%Z.

(** The relation "[t] is [u] with some whitespace characters removed". *)
Inductive ws_erased : str -> str -> Prop :=
| ws_nil : ws_erased [] []
| ws_keep c u t : ws_erased u t -> ws_erased (c :: u) (c :: t)
| ws_drop c u t : isspace c = true -> ws_erased u t -> ws_erased (c :: u) t.

(** The text with every whitespace character removed. *)
Definition squeeze (t : str) : str := filter (fun c => negb (isspace c)) t.

(** *** Vocabulary of the chunker's properties *)

(** The pieces of a forced split: [para[i:i+k]] for [i] in [range(0, len(para), k)]. *)
Definition pieces (para : str) (k : nat) : list str :=
  map (fun i => slice para i k) (map (fun j => j * k) (seq 0 ((length para + k - 1) / k))).

(** The emitted chunks and the stripped buffer have at most [k] characters. *)
Definition chunks_bounded (k : nat) (st : list str * str) : Prop :=
  Forall (fun c => length c <= k) (fst st) /\ length (strip (snd st)) <= k.

(** [buffered cur X]: the buffer [cur] is empty, or it holds the paragraphs
    [X] followed by the separator it always appends. *)
Definition buffered (cur X : str) : Prop :=
  (cur = [] /\ X = []) \/ cur = X ++ nn.

(** After the paragraphs [done], the chunks emitted so far followed by the
    buffered paragraphs are the processed text up to erased whitespace. *)
Definition reconstructs (done : list str) (st : list str * str) : Prop :=
  (done = [] -> st = ([], [])) /\
  exists X, buffered (snd st) X /\ ws_erased (join_nn done) (concat (fst st) ++ X).

End Chunker.

Import Chunker.

(** ** Chunks stitched back into the text *)

Module Stitching.

(** Every character of [g] is whitespace. *)
Definition blank (g : str) : bool := forallb isspace g.

(** The chunks, each after its gap: [g1 ++ c1 ++ g2 ++ c2 ++ ...]. *)
Definition stitch (gcs : list (str * str)) : str :=
  concat (map (fun gc => fst gc ++ snd gc) gcs).

(** A gap between two chunks: nothing at all, or a stretch that holds a
    paragraph separator. *)
Definition seam (g : str) : bool := negb (nonempty g) || contains g nn.

(** The paragraphs, each followed by the separator, as the buffer takes them. *)
Definition with_separators (ps : list str) : str :=
  concat (map (fun p => p ++ nn) ps).

(** The chunks [cs] placed after the gap [g], with nothing between them. *)
Definition adjoin (g : str) (cs : list str) : list (str * str) :=
  match cs with
  | [] => []
  | c :: cs' => (g, c) :: map (fun c' => ([], c')) cs'
  end.

(** The gaps are whitespace and those between two chunks are seams; the
    stretch [pend] that follows the last chunk is empty while there is no
    chunk and ends with a separator afterwards. *)
Definition seams (gcs : list (str * str)) (pend : str) : Prop :=
  Forall (fun gc => blank (fst gc) = true) gcs /\
  Forall (fun gc => seam (fst gc) = true) (tl gcs) /\
  ((gcs = [] /\ pend = []) \/ exists t, pend = t ++ nn /\ blank t = true).

(** After the paragraphs [done], these paragraphs with their separators are
    the emitted chunks with their gaps, then [pend], then the buffer. *)
Definition stitched (done : list str) (st : list str * str) : Prop :=
  exists gcs pend,
    fst st = map snd gcs /\
    with_separators done = stitch gcs ++ pend ++ snd st /\
    seams gcs pend /\
    (snd st = [] \/ exists X, snd st = X ++ nn).

End Stitching.

(** ** The extraction client and the aggregator ([corpus_builder.py]) *)

(** The [ticker] argument only labels log lines and is left out; [sleep]
    between attempts has no effect on what is returned. *)

Module Extraction.

(** What [json.loads] returns.  [JNull] is also Python's [None]. *)
#[warnings="-register-all"]
Inductive json : Type :=
| JNull
| JBool (b : bool)
| JNum (n : Z)
| JStr (t : str)
| JList (l : list json)
| JDict (d : list (str * json)).

Definition type_name (v : json) : str :=
  match v with
  | JNull => lit "NoneType"
  | JBool _ => lit "bool"
  | JNum _ => lit "int"
  | JStr _ => lit "str"
  | JList _ => lit "list"
  | JDict _ => lit "dict"
  end.

(** Truth value, as [not v] tests it. *)
Definition truthy (v : json) : bool :=
  match v with
  | JNull => false
  | JBool b => b
  | JNum n => negb (n =? 0)%Z
  | JStr t => nonempty t
  | JList l => match l with [] => false | _ => true end
  | JDict d => match d with [] => false | _ => true end
  end.

Definition no_attribute (v : json) (attr : string) : exn :=
  Exn "AttributeError"
      (lit "'" ++ type_name v ++ lit "' object has no attribute '" ++ lit attr ++ lit "'").

(** [v.get(key, default)]. *)
Definition py_get (v : json) (key : str) (default : json) : outcome json :=
  match v with
  | JDict d => Return (match dict_get d key with Some x => x | None => default end)
  | _ => Raise (no_attribute v "get")
  end.

(** [v.items()]. *)
Definition py_items (v : json) : outcome (dict json) :=
  match v with
  | JDict d => Return d
  | _ => Raise (no_attribute v "items")
  end.

(** [len(v)]. *)
Definition py_len (v : json) : outcome nat :=
  match v with
  | JStr t => Return (length t)
  | JList l => Return (length l)
  | JDict d => Return (length d)
  | _ => Raise (Exn "TypeError"
                  (lit "object of type '" ++ type_name v ++ lit "' has no len()"))
  end.

(** The elements [list.extend(v)] appends. *)
Definition py_iter (v : json) : outcome (list json) :=
  match v with
  | JList l => Return l
  | JStr t => Return (map (fun c => JStr [c]) t)
  | JDict d => Return (map (fun kv => JStr (fst kv)) d)
  | _ => Raise (Exn "TypeError"
                  (lit "'" ++ type_name v ++ lit "' object is not iterable"))
  end.

(** [{"structured_data": sd, "text_segments": segs}]. *)
Definition extraction_result (sd : dict json) (segs : list json) : json :=
  JDict [(lit "structured_data", JDict sd); (lit "text_segments", JList segs)].

Definition empty_result : json := extraction_result [] [].

(** The outcome of one request to the language service: the parsed reply, or
    the exception raised by the request or by [json.loads]. *)
Inductive response : Type :=
| Reply (result : json)
| Failure (e : exn).

(** The service: the outcome of the n-th request, sent with the given text. *)
Definition service : Type := nat -> str -> response.

Definition is_json_decode_error (e : exn) : bool :=
  String.eqb (exn_name e) "JSONDecodeError".

(** [_llm_extract_single_chunk]: [remaining] iterations of the retry loop are
    left, [attempt] is the loop variable, [n] counts the requests made.  Both
    [except] clauses retry while [attempt < max_retries - 1] and give the
    empty result after that. *)
Fixpoint single_chunk_attempts (svc : service) (text : str) (max_retries : nat)
    (remaining attempt n : nat) : outcome json * nat :=
  match remaining with
  | 0 => (Return JNull, n)
  | S remaining' =>
      let retry :=
        single_chunk_attempts svc text max_retries remaining' (S attempt) (S n) in
      let more := (attempt <? max_retries - 1) in
      let on_exception := if more then retry else (Return empty_result, S n) in
      match svc n text with
      | Failure _ => on_exception
      | Reply result =>
          match py_get result (lit "text_segments") JNull with
          | Raise _ => on_exception
          | Return segs =>
              if negb (truthy segs) && more then retry else (Return result, S n)
          end
      end
  end.

Definition _llm_extract_single_chunk (svc : service) (text : str) (max_retries n : nat)
  : outcome json * nat :=
  single_chunk_attempts svc text max_retries max_retries 0 n.

(** [value if isinstance(value, list) else [value]]. *)
Definition listify (value : json) : json :=
  match value with
  | JList _ => value
  | _ => JList [value]
  end.

(** The body of [for key, value in structured.items()].  Every chunk result
    is freshly parsed, so the list stored on first sight of a key is shared
    with nothing the loop reads again. *)
Definition merge_entry (all_structured_data : dict json) (kv : str * json)
  : outcome (dict json) :=
  let '(key, value) := kv in
  match dict_get all_structured_data key with
  | None => Return (dict_set all_structured_data key (listify value))
  | Some cur =>
      match value with
      | JList l =>
          match cur with
          | JList a => Return (dict_set all_structured_data key (JList (a ++ l)))
          | _ => Raise (no_attribute cur "extend")
          end
      | _ =>
          match cur with
          | JList a => Return (dict_set all_structured_data key (JList (a ++ [value])))
          | _ => Return (dict_set all_structured_data key (JList [cur; value]))
          end
      end
  end.

Fixpoint merge_structured (all_structured_data : dict json) (items : dict json)
  : outcome (dict json) :=
  match items with
  | [] => Return all_structured_data
  | kv :: rest =>
      all' <- merge_entry all_structured_data kv ;;
      merge_structured all' rest
  end.

(** The aggregation of one chunk result into
    [(all_structured_data, all_text_segments)]. *)
Definition merge_result (acc : dict json * list json) (result : json)
  : outcome (dict json * list json) :=
  structured <- py_get result (lit "structured_data") (JDict []) ;;
  items <- py_items structured ;;
  all' <- merge_structured (fst acc) items ;;
  segments <- py_get result (lit "text_segments") (JList []) ;;
  segs <- py_iter segments ;;
  Return (all', snd acc ++ segs).

(** The aggregator: chunk results merged in input order. *)
Fixpoint merge_results (acc : dict json * list json) (results : list json)
  : outcome (dict json * list json) :=
  match results with
  | [] => Return acc
  | result :: rest =>
      acc' <- merge_result acc result ;;
      merge_results acc' rest
  end.

(** [for i, chunk in enumerate(chunks, 1)]. *)
Fixpoint chunked_loop (svc : service) (chunks : list str)
    (acc : dict json * list json) (n : nat)
  : outcome (dict json * list json) * nat :=
  match chunks with
  | [] => (Return acc, n)
  | chunk :: rest =>
      let '(r, n') := _llm_extract_single_chunk svc chunk 3 n in
      match r with
      | Raise e => (Raise e, n')
      | Return result =>
          match merge_result acc result with
          | Raise e => (Raise e, n')
          | Return acc' => chunked_loop svc rest acc' n'
          end
      end
  end.

Definition llm_extract_chunked (svc : service) (text : str) (n : nat)
  : outcome json * nat :=
  match split_text_into_chunks text 100000 with
  | Raise e => (Raise e, n)
  | Return chunks =>
      let '(r, n') := chunked_loop svc chunks ([], []) n in
      (acc <- r ;; Return (extraction_result (fst acc) (snd acc)), n')
  end.

(** ['maximum context length' in error_msg.lower() or 'token' in error_msg.lower()]. *)
Definition mentions_token_limit (error_msg : str) : bool :=
  contains (lower error_msg) (lit "maximum context length")
  || contains (lower error_msg) (lit "token").

(** The [try] body of [llm_extract] after [json.loads]: [None] stands for
    [continue], [Some result] for [return result]. *)
Definition validate_result (result : json) (more : bool) : outcome (option json) :=
  segs <- py_get result (lit "text_segments") JNull ;;
  if negb (truthy segs) && more then Return None
  else
    logged <- py_get result (lit "text_segments") (JList []) ;;
    _ <- py_len logged ;;
    Return (Some result).

(** The retry loop of [llm_extract]. *)
Fixpoint extract_attempts (svc : service) (text : str) (max_retries : nat)
    (remaining attempt n : nat) : outcome json * nat :=
  match remaining with
  | 0 => (Return JNull, n)
  | S remaining' =>
      let retry :=
        extract_attempts svc text max_retries remaining' (S attempt) (S n) in
      let more := (attempt <? max_retries - 1) in
      let on_decode_error := if more then retry else (Return empty_result, S n) in
      let on_exception (e : exn) :=
        if mentions_token_limit (exn_msg e) then llm_extract_chunked svc text (S n)
        else if more then retry else (Return empty_result, S n) in
      match svc n text with
      | Failure e => if is_json_decode_error e then on_decode_error else on_exception e
      | Reply result =>
          match validate_result result more with
          | Raise e => on_exception e
          | Return None => retry
          | Return (Some result') => (Return result', S n)
          end
      end
  end.

Definition llm_extract (svc : service) (text : str) (max_retries n : nat)
  : outcome json * nat :=
  if (100000 <? estimate_tokens text)%Z then llm_extract_chunked svc text n
  else extract_attempts svc text max_retries max_retries 0 n.

(** The default [max_retries=3]. *)
Definition default_max_retries : nat := 3.

(** *** Vocabulary of the extraction properties *)

(** The elements a value contributes to the merged list of its key. *)
Definition elems (value : json) : list json :=
  match value with
  | JList l => l
  | _ => [value]
  end.

(** The list already accumulated under a key. *)
Definition prior (all : dict json) (key : str) : list json :=
  match dict_get all key with
  | Some (JList a) => a
  | _ => []
  end.

(** Every accumulated value is a list. *)
Definition all_lists (all : dict json) : Prop :=
  Forall (fun kv => exists l, snd kv = JList l) all.

(** [answered svc n chunks rs]: from request [n] on, the chunks are answered
    in turn by the results [rs]. *)
Inductive answered (svc : service) : nat -> list str -> list json -> Prop :=
| answered_nil n : answered svc n [] []
| answered_cons n n' chunk chunks r rs :
    _llm_extract_single_chunk svc chunk 3 n = (Return r, n') ->
    answered svc n' chunks rs ->
    answered svc n (chunk :: chunks) (r :: rs).

(** No request for [text] fails with a message that reroutes to chunked mode. *)
Definition no_token_errors (svc : service) (text : str) : Prop :=
  forall i e, svc i text = Failure e ->
              is_json_decode_error e = false ->
              mentions_token_limit (exn_msg e) = false.

(** A reply whose [structured_data] is [null]. *)
Definition null_structured_reply : json :=
  JDict [(lit "structured_data", JNull);
         (lit "text_segments",
          JList [JDict [(lit "text", JStr (lit "We plan to expand in Asia."));
                        (lit "category", JStr (lit "expansion"))]])].

(** The service that gives this reply to every request. *)
Definition always_null_structured : service := fun _ _ => Reply null_structured_reply.

(** The first request is refused with a rate-limit message, the next one is
    answered. *)
Definition rate_limited_once : service :=
  fun n _ =>
    match n with
    | 0 => Failure (Exn "RateLimitError"
                        (lit "Rate limit reached for requests on tokens per min"))
    | _ => Reply null_structured_reply
    end.

End Extraction.

(** ** The per-year tables of the store *)

Module Store.

(** A row of [tfidf_scores_<year>]. *)
Record tfidf_row : Type := {
  ticker : str;
  keyword : str;
  keyword_category : str;
  tf : R;
  idf : R;
  tfidf : R
}.

(** One year's tables: the tickers of [companies_<year>] (in ticker order),
    the [(ticker, text_segment)] rows of [corpus_<year>] and the rows of
    [tfidf_scores_<year>]. *)
Record year_tables : Type := {
  companies : list str;
  corpus : list (str * str);
  tfidf_scores : list tfidf_row
}.

Definition get_companies_by_year (db : year_tables) : list str := companies db.

Definition get_corpus_texts_by_year (db : year_tables) : list (str * str) := corpus db.

Definition get_company_corpus_texts (db : year_tables) (tk : str) : list str :=
  map snd (filter (fun row => str_eqb (fst row) tk) (corpus db)).

Definition get_tfidf_scores (db : year_tables) (tk : str) : list tfidf_row :=
  filter (fun row => str_eqb (ticker row) tk) (tfidf_scores db).

End Store.

Import Store.

(** ** The TF-IDF engine ([tfidf_calculator.py]) *)

Module TFIDF.

Local Open Scope R_scope.

Record keyword_rec : Type := { kw_keyword : str; kw_category : str }.

(** The value stored under a keyword in [year_tfidf]. *)
Record year_entry : Type := {
  ye_keyword : str;
  ye_category : str;
  ye_tf : R;
  ye_idf : R;
  ye_tfidf : R
}.

(** [all_texts]: the non-empty segment texts of the year. *)
Definition all_texts (db : year_tables) : list str :=
  map snd (filter (fun item => nonempty (snd item)) (get_corpus_texts_by_year db)).

Definition full_corpus (texts : list str) : str := lower (join_space texts).

Definition segment_count (texts : list str) (kw_text : str) : nat :=
  length (filter (fun text => contains (lower text) kw_text) texts).

Definition keyword_tf (texts : list str) (kw_text : str) : R :=
  let total_words := count_words (full_corpus texts) in
  if (0 <? total_words)%nat
  then INR (count (full_corpus texts) kw_text) / INR total_words
  else 0.

Definition keyword_idf (texts : list str) (kw_text : str) : R :=
  let total_segments := length texts in
  if (0 <? segment_count texts kw_text)%nat
  then ln (INR total_segments / INR (segment_count texts kw_text))
  else 0.

(** One iteration of [for keyword in keywords]. *)
Definition add_keyword (texts : list str) (year_tfidf : dict year_entry)
    (kw : keyword_rec) : dict year_entry :=
  let kw_text := lower (kw_keyword kw) in
  let tf := keyword_tf texts kw_text in
  let idf := keyword_idf texts kw_text in
  let tfidf := tf * idf in
  if Rlt_dec 0 tfidf then
    dict_set year_tfidf kw_text
      {| ye_keyword := kw_text; ye_category := kw_category kw;
         ye_tf := tf; ye_idf := idf; ye_tfidf := tfidf |}
  else year_tfidf.

Definition build_year_tfidf (texts : list str) (keywords : list keyword_rec)
  : dict year_entry :=
  fold_left (add_keyword texts) keywords [].

(** The rows of one company: a row for each keyword of [year_tfidf] found in
    the company's own text. *)
Definition company_rows (db : year_tables) (year_tfidf : dict year_entry) (tk : str)
  : list tfidf_row :=
  let company_text := lower (join_space (get_company_corpus_texts db tk)) in
  map (fun kv =>
         {| ticker := tk; keyword := fst kv;
            keyword_category := ye_category (snd kv);
            tf := ye_tf (snd kv); idf := ye_idf (snd kv);
            tfidf := ye_tfidf (snd kv) |})
      (filter (fun kv => contains company_text (fst kv)) year_tfidf).

(** [calculate_tfidf_for_year]: the rows handed to [save_tfidf_scores]; none
    when the year has no text or no company. *)
Definition calculate_tfidf_for_year (db : year_tables) (keywords : list keyword_rec)
  : list tfidf_row :=
  let texts := all_texts db in
  match texts, get_companies_by_year db with
  | [], _ => []
  | _, [] => []
  | _, _ =>
      let year_tfidf := build_year_tfidf texts keywords in
      flat_map (company_rows db year_tfidf) (get_companies_by_year db)
  end.

(** *** Vocabulary of the TF-IDF properties *)

(** What every entry of [year_tfidf] satisfies: it is stored under its own
    keyword, carries the year-wide weight of that keyword, and the weight is
    positive. *)
Definition entry_ok (texts : list str) (kv : str * year_entry) : Prop :=
  ye_keyword (snd kv) = fst kv /\
  ye_tfidf (snd kv) = keyword_tf texts (fst kv) * keyword_idf texts (fst kv) /\
  0 < ye_tfidf (snd kv).

(** A year with one company and two segments. *)
Definition example_year : year_tables :=
  {| companies := [lit "ACME"];
     corpus := [(lit "ACME", lit "China expansion plan");
                (lit "ACME", lit "other markets")];
     tfidf_scores := [] |}.

(** One keyword that occurs in the year's text and one that does not. *)
Definition example_keywords : list keyword_rec :=
  [ {| kw_keyword := lit "China"; kw_category := lit "china_positive" |};
    {| kw_keyword := lit "Brazil"; kw_category := lit "non_china_regions" |} ].

End TFIDF.

(** ** The score engine ([score_calculator.py]) *)

Module Score.

Local Open Scope R_scope.

Definition eps : R := 1 / 1000000000.

(** The density weight [k]. *)
Definition k : R := 5.

(** [sum(xs)]. *)
Definition py_sum (xs : list R) : R := fold_left Rplus xs 0.

(** [sum(row['tfidf'] for row in tfidf_data if row['keyword_category'] == cat)]. *)
Definition category_sum (tfidf_data : list tfidf_row) (cat : str) : R :=
  py_sum (map tfidf (filter (fun row => str_eqb (keyword_category row) cat) tfidf_data)).

Record raw_scores : Type := {
  rs_ticker : str;
  expansion_score : R;
  contraction_score : R;
  china_positive_score : R;
  china_negative_score : R;
  non_china_raw_score : R;
  total_tfidf : R;
  total_keywords_count : nat
}.

Definition calculate_company_scores (tk : str) (tfidf_data : list tfidf_row) : raw_scores :=
  let expansion := category_sum tfidf_data (lit "expansion") in
  let contraction := category_sum tfidf_data (lit "contraction") in
  let china_positive := category_sum tfidf_data (lit "china_positive") in
  let china_negative := category_sum tfidf_data (lit "china_negative") in
  let non_china := category_sum tfidf_data (lit "non_china_regions") in
  {| rs_ticker := tk;
     expansion_score := expansion;
     contraction_score := contraction;
     china_positive_score := china_positive;
     china_negative_score := china_negative;
     non_china_raw_score := non_china;
     total_tfidf := expansion + contraction + china_positive + china_negative
                    + non_china + eps;
     total_keywords_count := length tfidf_data |}.

(** The row written by [save_quantitative_scores]. *)
Record quant_score : Type := {
  qs_ticker : str;
  investment_attitude_score : R;
  qs_expansion_score : R;
  qs_contraction_score : R;
  china_investment_score : R;
  qs_china_positive_score : R;
  qs_china_negative_score : R;
  non_china_investment_score : R;
  qs_non_china_raw_score : R;
  china_investment_density : R;
  non_china_investment_density : R;
  china_investment_density_normalized : R;
  non_china_investment_density_normalized : R;
  qs_total_keywords_count : nat
}.

(** [np.mean] and [np.std] (population standard deviation). *)
Definition np_mean (xs : list R) : R := py_sum xs / INR (length xs).

Definition np_std (xs : list R) : R :=
  sqrt (np_mean (map (fun x => (x - np_mean xs) * (x - np_mean xs)) xs)).

(** [max(0, min(100, x))]. *)
Definition clamp (x : R) : R := Rmax 0 (Rmin 100 x).

(** [np.log1p(k * total_tfidf)]. *)
Definition density_factor (total : R) : R := ln (1 + k * total).

(** The NSS score of a positive and a negative mass, corrected by density. *)
Definition nss_score (pos neg total : R) : R :=
  let pos_d := pos / total in
  let neg_d := neg / total in
  let NSS := (pos_d - neg_d) / (pos_d + neg_d + eps) in
  let mid := (NSS + 1) * 50 in
  clamp (50 + (mid - 50) * density_factor total).

(** The body of the second loop, for one company. *)
Definition final_scores (nc_d_mean nc_d_std : R) (s : raw_scores) : quant_score :=
  let total := total_tfidf s in
  let attitude_score := nss_score (expansion_score s) (contraction_score s) total in
  let china_score := nss_score (china_positive_score s) (china_negative_score s) total in
  let nc_d := non_china_raw_score s / total in
  let nc_z := (nc_d - nc_d_mean) / nc_d_std in
  let non_china_score := clamp (nc_z * 10 + 50) in
  let cd := (china_positive_score s / total) * 100 in
  let ncd := (non_china_raw_score s / total) * 100 in
  let max_density := Rmax cd ncd in
  {| qs_ticker := rs_ticker s;
     investment_attitude_score := attitude_score;
     qs_expansion_score := expansion_score s;
     qs_contraction_score := contraction_score s;
     china_investment_score := china_score;
     qs_china_positive_score := china_positive_score s;
     qs_china_negative_score := china_negative_score s;
     non_china_investment_score := non_china_score;
     qs_non_china_raw_score := non_china_raw_score s;
     china_investment_density := cd;
     non_china_investment_density := ncd;
     china_investment_density_normalized :=
       if Rlt_dec 0 max_density then (cd / max_density) * 100 else 50;
     non_china_investment_density_normalized :=
       if Rlt_dec 0 max_density then (ncd / max_density) * 100 else 50;
     qs_total_keywords_count := total_keywords_count s |}.

(** The first loop: raw scores of every company that has TF-IDF rows. *)
Definition collect_raw_scores (db : year_tables) : list raw_scores :=
  flat_map (fun tk =>
              match get_tfidf_scores db tk with
              | [] => []
              | tfidf_data => [calculate_company_scores tk tfidf_data]
              end)
           (get_companies_by_year db).

(** [calculate_scores_for_year]: the rows saved, in company order; none when
    the year has no company or no company has TF-IDF rows. *)
Definition calculate_scores_for_year (db : year_tables) : list quant_score :=
  let raw := collect_raw_scores db in
  let non_china_densities := map (fun s => non_china_raw_score s / total_tfidf s) raw in
  let nc_d_mean := np_mean non_china_densities in
  let nc_d_std := np_std non_china_densities + eps in
  map (final_scores nc_d_mean nc_d_std) raw.

(** *** Vocabulary of the score properties *)

(** Valid TF-IDF rows: no negative weight. *)
Definition valid_rows (rows : list tfidf_row) : Prop :=
  Forall (fun row => 0 <= tfidf row) rows.

(** Raw scores built from valid rows: non-negative sums, positive total. *)
Definition valid_raw (s : raw_scores) : Prop :=
  0 <= expansion_score s /\ 0 <= contraction_score s /\
  0 <= china_positive_score s /\ 0 <= china_negative_score s /\
  0 <= non_china_raw_score s /\
  total_tfidf s = expansion_score s + contraction_score s + china_positive_score s
                  + china_negative_score s + non_china_raw_score s + eps.

(** The closed interval [0, 100]. *)
Definition in_0_100 (x : R) : Prop := 0 <= x <= 100.

(** The five category sums of a company's rows. *)
Definition category_sums (rows : list tfidf_row) (e c cp cn nc : R) : Prop :=
  category_sum rows (lit "expansion") = e /\
  category_sum rows (lit "contraction") = c /\
  category_sum rows (lit "china_positive") = cp /\
  category_sum rows (lit "china_negative") = cn /\
  category_sum rows (lit "non_china_regions") = nc.

(** A row of weight [w] for ticker [tk] in category [cat]. *)
Definition row_of (tk cat : string) (w : R) : tfidf_row :=
  {| ticker := lit tk; keyword := lit "kw"; keyword_category := lit cat;
     tf := w; idf := 1; tfidf := w |}.

(** One year's tables holding the given companies and TF-IDF rows. *)
Definition tables_of (tks : list string) (rows : list tfidf_row) : year_tables :=
  {| companies := map lit tks; corpus := []; tfidf_scores := rows |}.

End Score.

(** * File-name metadata ([corpus_builder.py]) *)

Module Metadata.

(** [t.split(sep)] for a one-character separator. *)
Fixpoint split_on (sep : ascii) (t : str) : list str :=
  match t with
  | [] => [[]]
  | c :: t' =>
      if Ascii.eqb c sep then [] :: split_on sep t'
      else cons_head c (split_on sep t')
  end.

(** [sep.join(ps)] for a one-character separator. *)
Fixpoint join_on (sep : ascii) (ps : list str) : str :=
  match ps with
  | [] => []
  | [p] => p
  | p :: ps' => p ++ sep :: join_on sep ps'
  end.

Definition underscore : ascii := "_"%char.

Definition hyphen : ascii := "-"%char.

(** The dict [extract_metadata] returns. *)
Record metadata : Type := {
  md_cik : str;
  md_fiscal_year_end : str;
  md_ticker : str;
  md_company_name : str;
  md_report_date : str;
  md_data_year : Z;
  md_needs_ticker_resolution : bool
}.

(** [parts[2].lower() in ['none', 'unknown', ''] or not parts[2]]. *)
Definition needs_resolution (ticker : str) : bool :=
  (str_eqb (lower ticker) (lit "none")
   || str_eqb (lower ticker) (lit "unknown")
   || str_eqb (lower ticker) [])
  || negb (nonempty ticker).

(** The record returned for a file name with fewer than six parts. *)
Definition fallback_metadata (filename : str) : metadata :=
  {| md_cik := [];
     md_fiscal_year_end := [];
     md_ticker := firstn 10 filename;
     md_company_name := lit "Unknown";
     md_report_date := [];
     md_data_year := 2025;
     md_needs_ticker_resolution := true |}.

(** [DatabaseManagerV2.YEARS]: [range(2002, 2025)], the years that have
    tables. *)
Definition YEARS : list Z := map Z.of_nat (seq 2002 23).

Section ExtractMetadata.

(** Python's [int] on a string: the integer it denotes, or [ValueError]. *)
Variable py_int : str -> outcome Z.

(** [extract_metadata], on [html_file.stem]. *)
Definition extract_metadata (filename : str) : outcome metadata :=
  let parts := split_on underscore filename in
  if 6 <=? length parts then
    let company_name_parts := firstn (length parts - 2 - 3) (skipn 3 parts) in
    let company_name := join_space company_name_parts in
    let second := nth 1 parts [] in
    let ticker := nth 2 parts [] in
    data_year <- py_int (nth 0 (split_on hyphen second) []) ;;
    Return {| md_cik := nth 0 parts [];
              md_fiscal_year_end := second;
              md_ticker := ticker;
              md_company_name := company_name;
              md_report_date := nth (length parts - 1) parts [];
              md_data_year := data_year;
              md_needs_ticker_resolution := needs_resolution ticker |}
  else Return (fallback_metadata filename).

End ExtractMetadata.

End Metadata.

(** * Shapes of replies and of merged results *)

Module Replies.

Import Extraction.

(** A response that ends the retry loop of a chunk at once: a reply that is
    an object with a non-empty [text_segments]. *)
Definition has_segments (r : response) : bool :=
  match r with
  | Reply result =>
      match py_get result (lit "text_segments") JNull with
      | Return segs => truthy segs
      | Raise _ => false
      end
  | Failure _ => false
  end.

(** What the last attempt of a chunk makes of its response: a reply that is
    an object is handed back even without segments, anything else becomes
    the empty result. *)
Definition last_resort (r : response) : json :=
  match r with
  | Reply result =>
      match py_get result (lit "text_segments") JNull with
      | Return _ => result
      | Raise _ => empty_result
      end
  | Failure _ => empty_result
  end.

(** The [text_segments] of an object, [[]] when the key is missing. *)
Definition segments_or_empty (d : dict json) : json :=
  match dict_get d (lit "text_segments") with
  | Some x => x
  | None => JList []
  end.

(** A result whose [text_segments] can be counted: an object whose
    [text_segments] is missing or is a list, a string or an object. *)
Definition countable_segments (v : json) : Prop :=
  exists d len, v = JDict d /\ py_len (segments_or_empty d) = Return len.

(** A value under [structured_data] on which [.items()] fails. *)
Definition bad_structured (d : dict json) : bool :=
  match dict_get d (lit "structured_data") with
  | None | Some (JDict _) => false
  | Some _ => true
  end.

(** A value under [text_segments] that [list.extend] cannot iterate. *)
Definition bad_segments (d : dict json) : bool :=
  match dict_get d (lit "text_segments") with
  | Some JNull | Some (JBool _) | Some (JNum _) => true
  | _ => false
  end.

(** The elements the results [rs] contribute to [key], in input order: the
    elements of a list value, a value of any other shape as one element. *)
Definition contributions (key : str) (rs : list (dict json * list json)) : list json :=
  flat_map (fun r => match dict_get (fst r) key with
                     | Some value => elems value
                     | None => []
                     end) rs.

(** Some result of [rs] has [key] in its structured data. *)
Definition mentions (key : str) (rs : list (dict json * list json)) : bool :=
  existsb (fun r => match dict_get (fst r) key with
                    | Some _ => true
                    | None => false
                    end) rs.

End Replies.

(** * Weights of a year's keyword table *)

Module Weights.

Import TFIDF.

Local Open Scope R_scope.

(** An entry of [year_tfidf] carries the year-wide tf and idf of its keyword,
    and their product. *)
Definition entry_weights (texts : list str) (kv : str * year_entry) : Prop :=
  ye_tf (snd kv) = keyword_tf texts (fst kv) /\
  ye_idf (snd kv) = keyword_idf texts (fst kv) /\
  ye_tfidf (snd kv) = ye_tf (snd kv) * ye_idf (snd kv).

End Weights.

(** * The companies and categories a year scores *)

Module Year.

Import Score.


(** The five categories that enter the scores. *)
Definition scored_category (cat : str) : bool :=
  str_eqb cat (lit "expansion") || str_eqb cat (lit "contraction")
  || str_eqb cat (lit "china_positive") || str_eqb cat (lit "china_negative")
  || str_eqb cat (lit "non_china_regions").

End Year.

(** * Proofs *)

(** ** Strings *)

Lemma is_newline_eq c : is_newline c = true -> c = newline.
Proof.
  unfold is_newline, newline. intros H. apply Nat.eqb_eq in H.
  rewrite <- H. symmetry. apply ascii_nat_embedding.
Qed.

Lemma split_nn_cons2 c c' t :
  split_nn (c :: c' :: t)
  = if is_newline c && is_newline c' then [] :: split_nn t
    else cons_head c (split_nn (c' :: t)).
Proof. reflexivity. Qed.

Lemma cons_head_nonempty c ps : cons_head c ps <> [].
Proof. destruct ps; discriminate. Qed.

Lemma split_nn_nonempty t : split_nn t <> [].
Proof.
  destruct t as [|c [|c' t'']]; try discriminate.
  rewrite split_nn_cons2.
  destruct (is_newline c && is_newline c'); [discriminate | apply cons_head_nonempty].
Qed.

Lemma join_nn_cons_head c ps : ps <> [] -> join_nn (cons_head c ps) = c :: join_nn ps.
Proof.
  destruct ps as [|p [|q ps]]; simpl; intros H; congruence.
Qed.

Lemma join_nn_cons p ps : ps <> [] -> join_nn (p :: ps) = p ++ nn ++ join_nn ps.
Proof. destruct ps; simpl; congruence. Qed.

Lemma join_split_nn_aux n : forall t, length t <= n -> join_nn (split_nn t) = t.
Proof.
  induction n as [|n IH]; intros t Hn.
  - destruct t; simpl in *; [reflexivity | lia].
  - destruct t as [|c [|c' t'']]; try reflexivity.
    rewrite split_nn_cons2.
    destruct (is_newline c && is_newline c') eqn:E.
    + apply andb_true_iff in E. destruct E as [E1 E2].
      apply is_newline_eq in E1, E2. subst.
      rewrite join_nn_cons by apply split_nn_nonempty.
      rewrite IH by (simpl in *; lia). reflexivity.
    + rewrite join_nn_cons_head by apply split_nn_nonempty.
      rewrite IH by (simpl in *; lia). reflexivity.
Qed.

Lemma join_split_nn t : join_nn (split_nn t) = t.
Proof. apply (join_split_nn_aux (n := length t)). lia. Qed.

Lemma join_nn_snoc ps p : ps <> [] -> join_nn (ps ++ [p]) = join_nn ps ++ nn ++ p.
Proof.
  induction ps as [|q ps IH]; intros H; [congruence|].
  destruct ps as [|r ps].
  - reflexivity.
  - assert (Hne : (r :: ps) ++ [p] <> []) by (simpl; discriminate).
    assert (Hne' : r :: ps <> []) by discriminate.
    change ((q :: r :: ps) ++ [p]) with (q :: ((r :: ps) ++ [p])).
    rewrite (join_nn_cons q Hne), (IH Hne'), (join_nn_cons q Hne').
    now rewrite <- !app_assoc.
Qed.

Lemma lstrip_length t : length (lstrip t) <= length t.
Proof.
  induction t as [|c t IH]; simpl; [lia|].
  destruct (isspace c); simpl; lia.
Qed.

Lemma rstrip_length t : length (rstrip t) <= length t.
Proof.
  unfold rstrip. rewrite length_rev.
  etransitivity; [apply lstrip_length|]. now rewrite length_rev.
Qed.

Lemma strip_length t : length (strip t) <= length t.
Proof.
  unfold strip. etransitivity; [apply lstrip_length | apply rstrip_length].
Qed.

Lemma rstrip_app_nn t : rstrip (t ++ nn) = rstrip t.
Proof. unfold rstrip, nn. rewrite rev_app_distr. reflexivity. Qed.

Lemma strip_app_nn t : strip (t ++ nn) = strip t.
Proof. unfold strip. now rewrite rstrip_app_nn. Qed.

Lemma nonempty_app_nn t : nonempty (t ++ nn) = true.
Proof. destruct t; reflexivity. Qed.

(** ** Forced splitting of an over-long paragraph *)

Lemma range0_pos stop step :
  (0 < step)%Z ->
  range0 stop step
  = Return (map (fun j => j * Z.to_nat step) (seq 0 ((stop + Z.to_nat step - 1) / Z.to_nat step))).
Proof.
  intros H. unfold range0.
  destruct (Z.eqb_spec step 0); [lia|].
  destruct (Z.ltb_spec step 0); [lia|]. reflexivity.
Qed.

Lemma pieces_concat_aux k n : forall (p : str) j0,
  length p <= n * k ->
  concat (map (fun j => firstn k (skipn ((j - j0) * k) p)) (seq j0 n)) = p.
Proof.
  induction n as [|n IH]; intros p j0 H.
  - simpl in *. destruct p; simpl in *; [reflexivity|lia].
  - simpl. rewrite Nat.sub_diag. simpl.
    transitivity (firstn k p ++ skipn k p); [|apply firstn_skipn].
    f_equal.
    transitivity (concat (map (fun j => firstn k (skipn ((j - S j0) * k) (skipn k p)))
                            (seq (S j0) n))).
    + f_equal. apply map_ext_in. intros j Hj. apply in_seq in Hj.
      rewrite skipn_skipn. do 2 f_equal.
      replace (j - j0) with (S (j - S j0)) by lia. simpl. lia.
    + apply IH. rewrite length_skipn. simpl in H. lia.
Qed.

Lemma ceil_div_cover a k : 0 < k -> a <= (a + k - 1) / k * k.
Proof.
  intros Hk.
  pose proof (Nat.div_mod (a + k - 1) k ltac:(lia)) as E.
  pose proof (Nat.mod_upper_bound (a + k - 1) k ltac:(lia)) as B.
  nia.
Qed.

Lemma pieces_concat p k : 0 < k -> concat (pieces p k) = p.
Proof.
  intros Hk. unfold pieces, slice. rewrite map_map.
  transitivity (concat (map (fun j => firstn k (skipn ((j - 0) * k) p))
                          (seq 0 ((length p + k - 1) / k)))).
  - f_equal. apply map_ext. intros j. now rewrite Nat.sub_0_r.
  - apply pieces_concat_aux. now apply ceil_div_cover.
Qed.

Lemma pieces_bounded p k : Forall (fun c => length c <= k) (pieces p k).
Proof.
  unfold pieces, slice. apply Forall_forall. intros c Hc.
  apply in_map_iff in Hc. destruct Hc as [i [<- _]].
  apply firstn_le_length.
Qed.

Lemma pieces_count p k : length (pieces p k) = (length p + k - 1) / k.
Proof. unfold pieces. now rewrite !length_map, length_seq. Qed.

(** ** The paragraph loop *)

(** With a positive budget an iteration never raises and takes one of three
    branches: forced split, append to the buffer, or flush and restart. *)
Lemma chunk_para_cases mc chunks cur p :
  (0 < mc)%Z ->
  ((mc < Z.of_nat (length p))%Z /\
   chunk_para mc (chunks, cur) p
   = Return (flush chunks cur ++ pieces p (Z.to_nat mc), []))
  \/ ((Z.of_nat (length p) <= mc)%Z /\
      (Z.of_nat (length cur + length p + 2) <= mc)%Z /\
      chunk_para mc (chunks, cur) p = Return (chunks, cur ++ p ++ nn))
  \/ ((Z.of_nat (length p) <= mc)%Z /\
      chunk_para mc (chunks, cur) p = Return (flush chunks cur, p ++ nn)).
Proof.
  intros Hmc. unfold chunk_para.
  destruct (Z.ltb_spec mc (Z.of_nat (length p))) as [Hlong|Hshort].
  - left. split; [assumption|].
    rewrite range0_pos by assumption. reflexivity.
  - destruct (Z.leb_spec (Z.of_nat (length cur + length p + 2)) mc) as [Hfit|Hover].
    + right; left. auto.
    + right; right. auto.
Qed.

(** A property of the loop state that every iteration re-establishes holds
    when the loop ends, and the loop does end normally. *)
Lemma chunk_loop_invariant (I : list str -> list str * str -> Prop) mc :
  (forall done st p, I done st ->
     exists st', chunk_para mc st p = Return st' /\ I (done ++ [p]) st') ->
  forall paras done st, I done st ->
    exists st', chunk_loop mc st paras = Return st' /\ I (done ++ paras) st'.
Proof.
  intros Hstep. induction paras as [|p paras IH]; intros done st HI.
  - exists st. rewrite app_nil_r. auto.
  - destruct (Hstep done st p HI) as [st1 [E1 H1]].
    destruct (IH (done ++ [p]) st1 H1) as [st2 [E2 H2]].
    exists st2. simpl. rewrite E1. simpl. rewrite E2.
    rewrite <- app_assoc in H2. auto.
Qed.

Lemma flush_bounded k chunks cur :
  Forall (fun c => length c <= k) chunks ->
  length (strip cur) <= k ->
  Forall (fun c => length c <= k) (flush chunks cur).
Proof.
  intros Hc Hs. unfold flush. destruct (nonempty cur); [|assumption].
  apply Forall_app. split; [assumption|]. constructor; [assumption|constructor].
Qed.

Lemma chunk_para_bounded mc st p :
  (0 < mc)%Z -> chunks_bounded (Z.to_nat mc) st ->
  exists st', chunk_para mc st p = Return st' /\ chunks_bounded (Z.to_nat mc) st'.
Proof.
  intros Hmc [Hc Hs]. destruct st as [chunks cur]. simpl in Hc, Hs.
  destruct (chunk_para_cases chunks cur p Hmc) as [[_ E]|[[Hp [Hfit E]]|[Hp E]]];
    rewrite E; eexists; (split; [reflexivity|]); split; simpl.
  - apply Forall_app. split; [now apply flush_bounded | apply pieces_bounded].
  - unfold strip, rstrip. simpl. lia.
  - assumption.
  - pose proof (strip_length (cur ++ p ++ nn)) as L.
    rewrite !length_app in L. simpl in L. lia.
  - now apply flush_bounded.
  - rewrite strip_app_nn. pose proof (strip_length p). lia.
Qed.

(** ** Whitespace erasure *)

Lemma ws_refl t : ws_erased t t.
Proof. induction t; constructor; assumption. Qed.

Lemma ws_app u1 t1 u2 t2 :
  ws_erased u1 t1 -> ws_erased u2 t2 -> ws_erased (u1 ++ u2) (t1 ++ t2).
Proof.
  intros H1 H2. induction H1; simpl.
  - assumption.
  - now constructor.
  - now apply ws_drop.
Qed.

Lemma ws_trans a b c : ws_erased a b -> ws_erased b c -> ws_erased a c.
Proof.
  intros Hab. revert c. induction Hab; intros d Hbd.
  - assumption.
  - inversion Hbd; subst.
    + apply ws_keep. auto.
    + apply ws_drop; auto.
  - apply ws_drop; auto.
Qed.

Lemma ws_nn_left t : ws_erased (nn ++ t) t.
Proof. unfold nn. simpl. do 2 (apply ws_drop; [reflexivity|]). apply ws_refl. Qed.

Lemma ws_lstrip t : ws_erased t (lstrip t).
Proof.
  induction t as [|c t IH]; simpl; [constructor|].
  destruct (isspace c) eqn:E.
  - now apply ws_drop.
  - apply ws_refl.
Qed.

Lemma ws_rev u t : ws_erased u t -> ws_erased (rev u) (rev t).
Proof.
  induction 1; simpl.
  - constructor.
  - apply ws_app; [assumption | apply ws_refl].
  - rewrite <- (app_nil_r (rev t)). apply ws_app; [assumption|].
    apply ws_drop; [assumption | constructor].
Qed.

Lemma ws_rstrip t : ws_erased t (rstrip t).
Proof.
  unfold rstrip. rewrite <- (rev_involutive t) at 1.
  apply ws_rev, ws_lstrip.
Qed.

Lemma ws_strip t : ws_erased t (strip t).
Proof. unfold strip. eapply ws_trans; [apply ws_rstrip | apply ws_lstrip]. Qed.

Lemma ws_squeeze u t : ws_erased u t -> squeeze u = squeeze t.
Proof.
  induction 1; simpl.
  - reflexivity.
  - now rewrite IHws_erased.
  - now rewrite H.
Qed.

(** ** Reconstruction invariant *)

Lemma flush_erased chunks cur X :
  buffered cur X -> ws_erased (concat chunks ++ X) (concat (flush chunks cur)).
Proof.
  intros [[-> ->]| ->]; unfold flush.
  - simpl. rewrite app_nil_r. apply ws_refl.
  - rewrite nonempty_app_nn, concat_app. simpl. rewrite app_nil_r.
    apply ws_app; [apply ws_refl|]. rewrite strip_app_nn. apply ws_strip.
Qed.

Lemma join_nn_step done p out :
  (done = [] -> out = []) ->
  ws_erased (join_nn done) out ->
  ws_erased (join_nn (done ++ [p])) (out ++ p).
Proof.
  intros Hnil H. destruct done as [|q done].
  - rewrite (Hnil eq_refl). apply ws_refl.
  - rewrite join_nn_snoc by discriminate.
    apply ws_app; [assumption | apply ws_nn_left].
Qed.

Lemma snoc_not_nil (A : Type) (l : list A) (x : A) : l ++ [x] = [] -> False.
Proof. destruct l; discriminate. Qed.

Lemma chunk_para_reconstructs mc done st p :
  (0 < mc)%Z -> reconstructs done st ->
  exists st', chunk_para mc st p = Return st' /\ reconstructs (done ++ [p]) st'.
Proof.
  intros Hmc [Hnil [X [HX HE]]]. destruct st as [chunks cur]. simpl in HX, HE.
  assert (Hflush : ws_erased (join_nn done) (concat (flush chunks cur)))
    by (eapply ws_trans; [exact HE | now apply flush_erased]).
  assert (Hflush0 : done = [] -> concat (flush chunks cur) = []).
  { intros Hd. specialize (Hnil Hd). inversion Hnil; subst. reflexivity. }
  destruct (chunk_para_cases chunks cur p Hmc) as [[Hlong E]|[[Hp [Hfit E]]|[Hp E]]];
    rewrite E; eexists; (split; [reflexivity|]);
    (split; [intros H0; destruct (snoc_not_nil _ _ H0)|]); simpl.
  - exists []. split; [left; auto|].
    rewrite app_nil_r, concat_app, pieces_concat by lia.
    now apply join_nn_step.
  - destruct HX as [[-> ->]| ->].
    + exists p. split; [right; reflexivity|].
      rewrite app_nil_r in HE. apply join_nn_step; [|assumption].
      intros Hd. specialize (Hnil Hd). inversion Hnil; subst. reflexivity.
    + exists (X ++ nn ++ p). split; [right; now rewrite <- !app_assoc|].
      destruct done as [|q done].
      * specialize (Hnil eq_refl). inversion Hnil as [[H1 H2]].
        destruct X; discriminate.
      * rewrite join_nn_snoc by discriminate.
        rewrite (app_assoc (concat chunks)).
        apply ws_app; [assumption | apply ws_refl].
  - exists p. split; [right; reflexivity|]. now apply join_nn_step.
Qed.

(** With a positive budget the splitter returns, and what it returns is
    bounded and reconstructs the text. *)
Lemma split_text_into_chunks_spec text max_tokens :
  (0 < max_tokens)%Z ->
  exists chunks,
    split_text_into_chunks text max_tokens = Return chunks /\
    Forall (fun c => (Z.of_nat (length c) <= max_tokens * 4)%Z) chunks /\
    ws_erased text (concat chunks).
Proof.
  intros Hpos. unfold split_text_into_chunks.
  destruct (Z.leb_spec (Z.of_nat (length text)) (max_tokens * 4)) as [Hshort|Hlong].
  - exists [text]. split; [reflexivity|]. split.
    + constructor; [assumption|constructor].
    + simpl. rewrite app_nil_r. apply ws_refl.
  - assert (Hmc : (0 < max_tokens * 4)%Z) by lia.
    set (mc := (max_tokens * 4)%Z) in *.
    destruct (@chunk_loop_invariant
                (fun done st => chunks_bounded (Z.to_nat mc) st /\ reconstructs done st) mc)
      with (paras := split_nn text) (done := @nil str) (st := (@nil str, @nil ascii))
      as [st [E [[Hb1 Hb2] [_ [X [HX HE]]]]]].
    + intros done st p [Hb Hr].
      destruct (chunk_para_bounded p Hmc Hb) as [st1 [E1 B1]].
      destruct (chunk_para_reconstructs p Hmc Hr) as [st2 [E2 R2]].
      rewrite E1 in E2. inversion E2; subst. eauto.
    + split.
      * split; simpl; [constructor | unfold strip, rstrip; simpl; lia].
      * split; [reflexivity|]. exists []. split; [left; auto | constructor].
    + rewrite E. simpl. eexists. split; [reflexivity|]. split.
      * pose proof (flush_bounded _ Hb1 Hb2) as F.
        eapply Forall_impl; [|exact F]. simpl. intros c Hc. lia.
      * simpl in HE. rewrite join_split_nn in HE.
        eapply ws_trans; [exact HE | now apply flush_erased].
Qed.

(** ** Stitching invariant *)

Import Stitching.

Lemma blank_app a b : blank (a ++ b) = blank a && blank b.
Proof. apply forallb_app. Qed.

Lemma blank_rev g : blank (rev g) = blank g.
Proof.
  induction g as [|c g IH]; [reflexivity|].
  simpl. rewrite blank_app, IH. simpl. rewrite andb_true_r. apply andb_comm.
Qed.

Lemma lstrip_blank t : exists lead, t = lead ++ lstrip t /\ blank lead = true.
Proof.
  induction t as [|c t [lead [E B]]]; [exists []; auto|].
  simpl. destruct (isspace c) eqn:Hc.
  - exists (c :: lead). simpl. rewrite Hc, B. split; [now f_equal | reflexivity].
  - exists []. auto.
Qed.

Lemma rstrip_blank t : exists trail, t = rstrip t ++ trail /\ blank trail = true.
Proof.
  destruct (lstrip_blank (rev t)) as [lead [E B]].
  exists (rev lead). split; [|now rewrite blank_rev].
  unfold rstrip. rewrite <- rev_app_distr, <- E. symmetry. apply rev_involutive.
Qed.

(** What [strip] takes away is whitespace at the two ends. *)
Lemma strip_blank t :
  exists lead trail, t = lead ++ strip t ++ trail /\ blank lead = true /\ blank trail = true.
Proof.
  destruct (rstrip_blank t) as [trail [E B]].
  destruct (lstrip_blank (rstrip t)) as [lead [E' B']].
  exists lead, trail. split; [|auto].
  unfold strip. rewrite app_assoc, <- E'. exact E.
Qed.

Lemma startswith_app s b : startswith (s ++ b) s = true.
Proof.
  induction s as [|c s IH]; [now destruct b|].
  simpl. now rewrite Ascii.eqb_refl.
Qed.

Lemma contains_startswith t s : startswith t s = true -> contains t s = true.
Proof. intros H. destruct t; unfold contains; fold contains; now rewrite H. Qed.

Lemma contains_app a s b : contains (a ++ s ++ b) s = true.
Proof.
  induction a as [|c a IH].
  - change ([] ++ s ++ b) with (s ++ b). apply contains_startswith.
    exact (startswith_app s b).
  - simpl. rewrite IH. apply orb_true_r.
Qed.

Lemma with_separators_snoc ps p :
  with_separators (ps ++ [p]) = with_separators ps ++ p ++ nn.
Proof.
  unfold with_separators. rewrite map_app, concat_app. simpl.
  now rewrite app_nil_r.
Qed.

Lemma with_separators_join ps : ps <> [] -> with_separators ps = join_nn ps ++ nn.
Proof.
  induction ps as [|p ps IH]; [congruence|]. intros _.
  destruct ps as [|q ps]; [unfold with_separators; simpl; now rewrite app_nil_r|].
  rewrite join_nn_cons by discriminate.
  change (with_separators (p :: q :: ps)) with ((p ++ nn) ++ with_separators (q :: ps)).
  rewrite IH by discriminate. now rewrite <- !app_assoc.
Qed.

Lemma stitch_app gcs gcs' : stitch (gcs ++ gcs') = stitch gcs ++ stitch gcs'.
Proof. unfold stitch. now rewrite map_app, concat_app. Qed.

Lemma stitch_snoc gcs g c : stitch (gcs ++ [(g, c)]) = stitch gcs ++ g ++ c.
Proof. rewrite stitch_app. f_equal. unfold stitch. simpl. apply app_nil_r. Qed.

Lemma stitch_adjoin g cs : cs <> [] -> stitch (adjoin g cs) = g ++ concat cs.
Proof.
  destruct cs as [|c cs]; [congruence|]. intros _.
  unfold stitch. simpl. rewrite <- app_assoc. do 2 f_equal.
  induction cs as [|c' cs IH]; [reflexivity|]. simpl. now rewrite IH.
Qed.

Lemma map_snd_adjoin g cs : map snd (adjoin g cs) = cs.
Proof.
  destruct cs as [|c cs]; [reflexivity|]. simpl. f_equal.
  induction cs as [|c' cs IH]; [reflexivity|]. simpl. now rewrite IH.
Qed.

Lemma adjoin_blank g cs :
  blank g = true -> Forall (fun gc => blank (fst gc) = true) (adjoin g cs).
Proof.
  intros Hg. destruct cs as [|c cs]; constructor; [assumption|].
  induction cs; constructor; auto.
Qed.

Lemma adjoin_tl_seam g cs : Forall (fun gc => seam (fst gc) = true) (tl (adjoin g cs)).
Proof.
  destruct cs as [|c cs]; [constructor|]. simpl.
  induction cs; constructor; auto.
Qed.

Lemma adjoin_seam g cs :
  seam g = true -> Forall (fun gc => seam (fst gc) = true) (adjoin g cs).
Proof.
  intros Hg. destruct cs as [|c cs]; [constructor|].
  constructor; [assumption | apply (adjoin_tl_seam g (c :: cs))].
Qed.

Lemma Forall_tl_app (A : Type) (P : A -> Prop) (l l' : list A) :
  Forall P (tl l) ->
  (l <> [] -> Forall P l') ->
  (l = [] -> Forall P (tl l')) ->
  Forall P (tl (l ++ l')).
Proof.
  destruct l as [|x l]; simpl; intros H1 H2 H3; [auto|].
  apply Forall_app. split; [assumption | apply H2; discriminate].
Qed.

Lemma seams_pend_blank gcs pend : seams gcs pend -> blank pend = true.
Proof.
  intros (_ & _ & [[_ ->]|[t [-> Ht]]]); [reflexivity|].
  rewrite blank_app, Ht. reflexivity.
Qed.

Lemma seams_pend_seam gcs pend : seams gcs pend -> gcs <> [] -> seam pend = true.
Proof.
  intros (_ & _ & [[-> _]|[t [-> Ht]]]) Hne; [congruence|].
  unfold seam. rewrite <- (app_nil_r nn), contains_app. apply orb_true_r.
Qed.

(** Flushing the buffer keeps the stitching: the stripped buffer becomes a
    chunk, what was stripped on its left joins the gap before it, and what was
    stripped on its right, separator included, is the stretch after it. *)
Lemma flush_stitched gcs pend cur :
  seams gcs pend ->
  (cur = [] \/ exists X, cur = X ++ nn) ->
  exists gcs' pend',
    flush (map snd gcs) cur = map snd gcs' /\
    stitch gcs ++ pend ++ cur = stitch gcs' ++ pend' /\
    seams gcs' pend'.
Proof.
  intros Hs [->|[X ->]].
  - exists gcs, pend. rewrite app_nil_r. auto.
  - destruct (strip_blank X) as (lead & trail & HX & Hl & Ht).
    pose proof (seams_pend_blank Hs) as Hpb.
    exists (gcs ++ [(pend ++ lead, strip X)]), (trail ++ nn).
    split; [|split].
    + unfold flush. rewrite nonempty_app_nn, strip_app_nn, map_app. reflexivity.
    + rewrite stitch_snoc, <- !app_assoc. do 2 f_equal.
      replace (lead ++ strip X ++ trail ++ nn) with ((lead ++ strip X ++ trail) ++ nn)
        by (now rewrite <- !app_assoc).
      now rewrite <- HX.
    + destruct Hs as (Hb & Hm & Hp). split; [|split].
      * apply Forall_app. split; [assumption|].
        constructor; [|constructor]. simpl. now rewrite blank_app, Hpb, Hl.
      * apply Forall_tl_app; [assumption | | intros _; constructor].
        intros Hne. constructor; [|constructor]. simpl.
        destruct Hp as [[-> _]|[t [-> _]]]; [congruence|].
        unfold seam. rewrite <- app_assoc, contains_app. apply orb_true_r.
      * right. exists trail. auto.
Qed.

Lemma chunk_para_stitched mc done st p :
  (0 < mc)%Z -> stitched done st ->
  exists st', chunk_para mc st p = Return st' /\ stitched (done ++ [p]) st'.
Proof.
  intros Hmc (gcs & pend & Hc & HT & Hs & Hcur). destruct st as [chunks cur].
  simpl in Hc, HT, Hcur. subst chunks.
  destruct (chunk_para_cases (map snd gcs) cur p Hmc) as [[Hlong E]|[[Hp [Hfit E]]|[Hp E]]];
    rewrite E; eexists; (split; [reflexivity|]).
  - destruct (flush_stitched Hs Hcur) as (gcs' & pend' & Hf & Hst & Hs').
    assert (Hne : pieces p (Z.to_nat mc) <> []).
    { intros H0. pose proof (@pieces_concat p (Z.to_nat mc)) as Hpc.
      rewrite H0 in Hpc. simpl in Hpc. rewrite <- Hpc in Hlong by lia.
      simpl in Hlong. lia. }
    exists (gcs' ++ adjoin pend' (pieces p (Z.to_nat mc))), nn. cbn [fst snd].
    split; [|split; [|split]].
    + now rewrite map_app, map_snd_adjoin, Hf.
    + rewrite with_separators_snoc, HT, Hst, stitch_app, stitch_adjoin by assumption.
      rewrite pieces_concat by lia. rewrite app_nil_r.
      now rewrite <- !app_assoc.
    + destruct Hs' as (Hb & Hm & Hp'). split; [|split].
      * apply Forall_app. split; [assumption|].
        apply adjoin_blank. apply (@seams_pend_blank gcs' pend'). split; auto.
      * apply Forall_tl_app; [assumption | | intros _; apply adjoin_tl_seam].
        intros Hne'. apply adjoin_seam.
        apply (@seams_pend_seam gcs' pend'); [split; auto | assumption].
      * right. exists []. auto.
    + left. reflexivity.
  - exists gcs, pend. cbn [fst snd]. split; [reflexivity|]. split; [|split; [assumption|]].
    + rewrite with_separators_snoc, HT. now rewrite <- !app_assoc.
    + right. exists (cur ++ p). now rewrite <- !app_assoc.
  - destruct (flush_stitched Hs Hcur) as (gcs' & pend' & Hf & Hst & Hs').
    exists gcs', pend'. cbn [fst snd]. split; [assumption|]. split; [|split; [assumption|]].
    + rewrite with_separators_snoc, HT, Hst. now rewrite <- !app_assoc.
    + right. exists p. reflexivity.
Qed.

(** With a positive budget the text is the returned chunks in order, with
    whitespace between them: every gap is whitespace only, and a gap between
    two chunks is empty or holds a paragraph separator. *)
Lemma split_text_into_chunks_stitched text max_tokens :
  (0 < max_tokens)%Z ->
  exists gcs g_end,
    split_text_into_chunks text max_tokens = Return (map snd gcs) /\
    text = stitch gcs ++ g_end /\
    Forall (fun gc => blank (fst gc) = true) gcs /\
    Forall (fun gc => seam (fst gc) = true) (tl gcs) /\
    blank g_end = true.
Proof.
  intros Hpos. unfold split_text_into_chunks.
  destruct (Z.leb_spec (Z.of_nat (length text)) (max_tokens * 4)) as [Hshort|Hlong].
  - exists [([], text)], []. unfold stitch. simpl. rewrite !app_nil_r.
    repeat split; repeat constructor.
  - assert (Hmc : (0 < max_tokens * 4)%Z) by lia.
    set (mc := (max_tokens * 4)%Z) in *.
    destruct (@chunk_loop_invariant stitched mc)
      with (paras := split_nn text) (done := @nil str) (st := (@nil str, @nil ascii))
      as [[chunks cur] [E (gcs & pend & Hc & HT & Hs & Hcur)]].
    + intros done st p H. now apply chunk_para_stitched.
    + exists [], []. simpl. repeat split; auto; constructor.
    + rewrite E. simpl in *. subst chunks.
      destruct (flush_stitched Hs Hcur) as (gcs' & pend' & Hf & Hst & (Hb & Hm & Hp)).
      rewrite with_separators_join, join_split_nn in HT by apply split_nn_nonempty.
      rewrite Hst in HT.
      destruct Hp as [[-> ->]|[t [-> Ht]]].
      * destruct text; discriminate.
      * exists gcs', t. rewrite Hf. split; [reflexivity|].
        rewrite app_assoc in HT. apply app_inv_tail in HT. auto.
Qed.

(** ** The chunker on small inputs *)

Example split_example :
  split_text_into_chunks (lit "ab

cd


 efghi

jkl") 1
  = Return [lit "ab"; lit "cd"; [newline; " "; "e"; "f"]%char; lit "ghi"; lit "jkl"].
Proof. reflexivity. Qed.

Example split_short_text :
  split_text_into_chunks (lit "ab

c") 2 = Return [lit "ab

c"].
Proof. reflexivity. Qed.

Example split_zero_budget :
  split_text_into_chunks (lit "a") 0
  = Raise (Exn "ValueError" (lit "range() arg 3 must not be zero")).
Proof. reflexivity. Qed.

(** ** Chunker claims *)

Lemma squeeze_app u t : squeeze (u ++ t) = squeeze u ++ squeeze t.
Proof. apply filter_app. Qed.

Lemma squeeze_join_nn ps : squeeze (join_nn ps) = concat (map squeeze ps).
Proof.
  induction ps as [|p ps IH]; [reflexivity|].
  destruct ps as [|q ps].
  - simpl. now rewrite app_nil_r.
  - rewrite join_nn_cons by discriminate.
    rewrite !squeeze_app, IH. reflexivity.
Qed.

(** C3: for every text and every positive budget the splitter returns, and
    the text is its chunks, in order and each in one piece, with gaps before,
    between and after them that hold whitespace only; a gap between two
    chunks is empty (a forced cut) or holds a paragraph separator, so that
    nothing inside a paragraph is lost but whitespace at its ends. Hence the
    concatenation of the chunks is the text with some whitespace removed and,
    whitespace apart, the paragraphs of the input one after the other, in
    order, none dropped. *)
Theorem C3_chunks_reconstruct_text (text : str) (max_tokens : Z) :
  (0 < max_tokens)%Z ->
  exists gcs g_end,
    split_text_into_chunks text max_tokens = Return (map snd gcs) /\
    text = stitch gcs ++ g_end /\
    Forall (fun gc => blank (fst gc) = true) gcs /\
    Forall (fun gc => seam (fst gc) = true) (tl gcs) /\
    blank g_end = true /\
    ws_erased text (concat (map snd gcs)) /\
    squeeze (concat (map snd gcs)) = squeeze text /\
    squeeze (concat (map snd gcs)) = concat (map squeeze (split_nn text)).
Proof.
  intros Hpos.
  destruct (split_text_into_chunks_stitched text Hpos)
    as (gcs & g_end & E & Ht & Hb & Hm & He).
  destruct (split_text_into_chunks_spec text Hpos) as [chunks [E' [_ Hw]]].
  rewrite E in E'. inversion E' as [Hc]. rewrite <- Hc in Hw.
  assert (Hs : squeeze (concat (map snd gcs)) = squeeze text)
    by (symmetry; now apply ws_squeeze).
  exists gcs, g_end. repeat (split; [assumption|]).
  rewrite Hs. rewrite <- (join_split_nn text) at 1. apply squeeze_join_nn.
Qed.

Lemma C3_chunks_reconstruct_text_witness :
  let text := lit "ab

cd


 efghi

jkl" in
  exists gcs g_end,
    split_text_into_chunks text 1 = Return (map snd gcs) /\
    text = stitch gcs ++ g_end /\
    Forall (fun gc => blank (fst gc) = true) gcs /\
    Forall (fun gc => seam (fst gc) = true) (tl gcs) /\
    blank g_end = true /\
    ws_erased text (concat (map snd gcs)) /\
    squeeze (concat (map snd gcs)) = squeeze text /\
    squeeze (concat (map snd gcs)) = concat (map squeeze (split_nn text)).
Proof. intros text. apply C3_chunks_reconstruct_text. reflexivity. Defined.

(** C4: for every text and every positive budget the splitter returns, and
    every chunk it returns has at most [max_chars = max_tokens * 4]
    characters; a paragraph longer than [max_chars] is emitted only as
    consecutive pieces of at most [max_chars] characters each, which together
    are the paragraph. *)
Theorem C4_chunks_within_budget (text : str) (max_tokens : Z) :
  (0 < max_tokens)%Z ->
  (exists chunks,
     split_text_into_chunks text max_tokens = Return chunks /\
     Forall (fun c => (Z.of_nat (length c) <= max_tokens * 4)%Z) chunks) /\
  (forall chunks current_chunk para,
     (max_tokens * 4 < Z.of_nat (length para))%Z ->
     exists ps,
       chunk_para (max_tokens * 4) (chunks, current_chunk) para
       = Return (flush chunks current_chunk ++ ps, []) /\
       concat ps = para /\
       Forall (fun c => (Z.of_nat (length c) <= max_tokens * 4)%Z) ps).
Proof.
  intros Hpos. split.
  - destruct (split_text_into_chunks_spec text Hpos) as [chunks [E [Hb _]]].
    eauto.
  - intros chunks cur para Hlong.
    assert (Hmc : (0 < max_tokens * 4)%Z) by lia.
    destruct (chunk_para_cases chunks cur para Hmc) as [[_ E]|[[Hp _]|[Hp _]]];
      try lia.
    exists (pieces para (Z.to_nat (max_tokens * 4))). split; [exact E|]. split.
    + apply pieces_concat. lia.
    + eapply Forall_impl; [|apply pieces_bounded]. simpl. intros c Hc. lia.
Qed.

Lemma C4_chunks_within_budget_witness :
  (exists chunks,
     split_text_into_chunks (lit "abcdefghij

k") 2 = Return chunks /\
     Forall (fun c => (Z.of_nat (length c) <= 2 * 4)%Z) chunks) /\
  (forall chunks current_chunk para,
     (2 * 4 < Z.of_nat (length para))%Z ->
     exists ps,
       chunk_para (2 * 4) (chunks, current_chunk) para
       = Return (flush chunks current_chunk ++ ps, []) /\
       concat ps = para /\
       Forall (fun c => (Z.of_nat (length c) <= 2 * 4)%Z) ps).
Proof. apply C4_chunks_within_budget. reflexivity. Defined.

Lemma single_long_paragraph text k :
  0 < k -> length text = k + 1 -> length (pieces text k) = 2.
Proof.
  intros Hk Hl. rewrite pieces_count, Hl.
  replace (k + 1 + k - 1) with (2 * k) by lia.
  apply Nat.div_mul. lia.
Qed.

(** C5: a text of at most [max_chars = max_tokens * 4] characters, the
    boundary included, is returned as the single chunk; for every budget other
    than 0, a text that is one paragraph of [max_chars + 1] characters gives
    at least two chunks. *)
Theorem C5_single_chunk_boundary (text : str) (max_tokens : Z) :
  ((Z.of_nat (length text) <= max_tokens * 4)%Z ->
   split_text_into_chunks text max_tokens = Return [text]) /\
  ((max_tokens <> 0)%Z ->
   split_nn text = [text] ->
   Z.of_nat (length text) = (max_tokens * 4 + 1)%Z ->
   exists chunks,
     split_text_into_chunks text max_tokens = Return chunks /\
     2 <= length chunks).
Proof.
  split.
  - intros H. unfold split_text_into_chunks.
    destruct (Z.leb_spec (Z.of_nat (length text)) (max_tokens * 4)); [reflexivity|lia].
  - intros Hnz Hone Hlen.
    assert (Hpos : (0 < max_tokens)%Z) by lia.
    unfold split_text_into_chunks.
    destruct (Z.leb_spec (Z.of_nat (length text)) (max_tokens * 4)); [lia|].
    rewrite Hone. unfold chunk_loop.
    assert (Hmc : (0 < max_tokens * 4)%Z) by lia.
    destruct (chunk_para_cases [] [] text Hmc) as [[_ E]|[[Hp _]|[Hp _]]]; try lia.
    assert (L : length (pieces text (Z.to_nat (max_tokens * 4))) = 2)
      by (apply single_long_paragraph; lia).
    unfold str in *. rewrite E.
    exists (pieces text (Z.to_nat (max_tokens * 4))). split; [reflexivity|].
    rewrite L. lia.
Qed.

Lemma C5_single_chunk_boundary_witness :
  (split_text_into_chunks (lit "abcd") 1 = Return [lit "abcd"]) /\
  (exists chunks,
     split_text_into_chunks (lit "abcde") 1 = Return chunks /\
     2 <= length chunks).
Proof.
  split.
  - apply (proj1 (C5_single_chunk_boundary (lit "abcd") 1)). vm_compute. discriminate.
  - apply (proj2 (C5_single_chunk_boundary (lit "abcde") 1));
      [discriminate | reflexivity | reflexivity].
Defined.

(** C5, the budget 0: the one-character text ["a"] is a single paragraph of
    [max_chars + 1] characters, and the splitter raises [ValueError] on it
    instead of returning two chunks. *)
Lemma C5_zero_budget_counterexample :
  let text := lit "a" in
  split_nn text = [text] /\
  Z.of_nat (length text) = (0 * 4 + 1)%Z /\
  split_text_into_chunks text 0
  = Raise (Exn "ValueError" (lit "range() arg 3 must not be zero")) /\
  ~ (exists chunks,
       split_text_into_chunks text 0 = Return chunks /\ 2 <= length chunks).
Proof.
  intros text. repeat split.
  intros [chunks [E _]]. discriminate E.
Qed.

(** ** Scores *)

Import Score.

Section ScoreFacts.

Open Scope R_scope.

Lemma eps_pos : 0 < eps.
Proof. unfold eps. lra. Qed.

Lemma clamp_bounds x : 0 <= clamp x <= 100.
Proof.
  unfold clamp, Rmax, Rmin.
  destruct (Rle_dec 100 x); destruct (Rle_dec 0 _); lra.
Qed.

Lemma clamp_id x : 0 <= x <= 100 -> clamp x = x.
Proof.
  intros H. unfold clamp, Rmax, Rmin.
  destruct (Rle_dec 100 x); destruct (Rle_dec 0 _); lra.
Qed.

Lemma clamp_above x : 50 < x -> 50 < clamp x.
Proof.
  intros H. unfold clamp, Rmax, Rmin.
  destruct (Rle_dec 100 x); destruct (Rle_dec 0 _); lra.
Qed.

Lemma fold_plus_shift xs a : fold_left Rplus xs a = a + fold_left Rplus xs 0.
Proof.
  revert a. induction xs as [|x xs IH]; intros a; simpl.
  - lra.
  - rewrite IH, (IH (0 + x)). lra.
Qed.

Lemma py_sum_cons x xs : py_sum (x :: xs) = x + py_sum xs.
Proof. unfold py_sum. simpl. rewrite fold_plus_shift. lra. Qed.

Lemma py_sum_nonneg xs : Forall (fun x => 0 <= x) xs -> 0 <= py_sum xs.
Proof.
  induction 1 as [|x xs Hx _ IH].
  - unfold py_sum. simpl. lra.
  - rewrite py_sum_cons. lra.
Qed.

Lemma category_sum_nonneg rows cat : valid_rows rows -> 0 <= category_sum rows cat.
Proof.
  intros H. unfold category_sum. apply py_sum_nonneg.
  apply Forall_map. apply Forall_forall. intros row Hin.
  apply filter_In in Hin. destruct Hin as [Hin _].
  unfold valid_rows in H. rewrite Forall_forall in H. auto.
Qed.

Lemma category_sum_nil cat : category_sum [] cat = 0.
Proof. reflexivity. Qed.

Lemma get_tfidf_scores_valid db tk :
  valid_rows (tfidf_scores db) -> valid_rows (get_tfidf_scores db tk).
Proof.
  unfold valid_rows, get_tfidf_scores. rewrite !Forall_forall.
  intros H row Hin. apply filter_In in Hin. apply H. tauto.
Qed.

Lemma calculate_company_scores_valid tk rows :
  valid_rows rows -> valid_raw (calculate_company_scores tk rows).
Proof.
  intros H. unfold valid_raw, calculate_company_scores. simpl.
  repeat split; try apply category_sum_nonneg; auto.
Qed.

Lemma valid_raw_total_pos s : valid_raw s -> 0 < total_tfidf s.
Proof.
  intros (H1 & H2 & H3 & H4 & H5 & ->). pose proof eps_pos. lra.
Qed.

(** Every saved row is [final_scores] of the raw scores of a company with
    rows. *)
Lemma calculate_scores_for_year_inv db q :
  In q (calculate_scores_for_year db) ->
  exists tk m sd,
    In tk (get_companies_by_year db) /\ get_tfidf_scores db tk <> [] /\
    q = final_scores m sd (calculate_company_scores tk (get_tfidf_scores db tk)).
Proof.
  unfold calculate_scores_for_year. intros Hin.
  apply in_map_iff in Hin. destruct Hin as [s [<- Hs]].
  unfold collect_raw_scores in Hs. apply in_flat_map in Hs.
  destruct Hs as [tk [Htk Hs]].
  destruct (get_tfidf_scores db tk) as [|row rows] eqn:E; [destruct Hs|].
  destruct Hs as [<-|[]].
  do 3 eexists. split; [exact Htk|]. rewrite E. split; [discriminate|]. reflexivity.
Qed.

Lemma normalized_bounds a b :
  0 <= a -> 0 <= b ->
  0 <= (if Rlt_dec 0 (Rmax a b) then a / Rmax a b * 100 else 50) <= 100.
Proof.
  intros Ha Hb. destruct (Rlt_dec 0 (Rmax a b)) as [Hm|Hm]; [|lra].
  assert (Hle : a <= Rmax a b) by apply Rmax_l.
  assert (Hq : 0 <= a / Rmax a b <= 1).
  { split.
    - apply Rmult_le_pos; [assumption|]. left. now apply Rinv_0_lt_compat.
    - apply (Rmult_le_reg_r (Rmax a b)); [assumption|].
      unfold Rdiv. rewrite Rmult_assoc, Rinv_l by lra. lra. }
  lra.
Qed.

Lemma density_nonneg x total : 0 <= x -> 0 < total -> 0 <= x / total * 100.
Proof.
  intros Hx Ht.
  assert (0 <= x / total).
  { apply Rmult_le_pos; [assumption|]. left. now apply Rinv_0_lt_compat. }
  lra.
Qed.

Lemma final_scores_bounded m sd s :
  valid_raw s ->
  in_0_100 (investment_attitude_score (final_scores m sd s)) /\
  in_0_100 (china_investment_score (final_scores m sd s)) /\
  in_0_100 (non_china_investment_score (final_scores m sd s)) /\
  in_0_100 (china_investment_density_normalized (final_scores m sd s)) /\
  in_0_100 (non_china_investment_density_normalized (final_scores m sd s)).
Proof.
  intros Hs. pose proof (valid_raw_total_pos Hs) as Ht.
  destruct Hs as (H1 & H2 & H3 & H4 & H5 & _).
  unfold in_0_100, final_scores, nss_score. simpl.
  repeat split; try apply clamp_bounds.
  - apply normalized_bounds; now apply density_nonneg.
  - apply normalized_bounds; now apply density_nonneg.
  - rewrite Rmax_comm. apply normalized_bounds; now apply density_nonneg.
  - rewrite Rmax_comm. apply normalized_bounds; now apply density_nonneg.
Qed.

End ScoreFacts.

Section ScoreClaims.

Open Scope R_scope.

Lemma density_factor_pos total : 0 < total -> 0 < density_factor total.
Proof.
  intros H. unfold density_factor, k. rewrite <- ln_1.
  apply ln_increasing; lra.
Qed.

Lemma density_factor_small total : 0 < total -> density_factor total < k * total.
Proof.
  intros H. unfold density_factor, k.
  rewrite <- (ln_exp (5 * total)) at 2.
  apply ln_increasing; [lra|]. apply exp_ineq1. lra.
Qed.

Lemma nss_score_balanced p total : nss_score p p total = 50.
Proof.
  unfold nss_score.
  replace (p / total - p / total) with 0 by lra.
  unfold Rdiv at 1. rewrite Rmult_0_l.
  replace (50 + ((0 + 1) * 50 - 50) * density_factor total) with 50 by lra.
  apply clamp_id. lra.
Qed.

Lemma nss_score_positive p n total :
  0 <= n -> n < p -> 0 < total -> 50 < nss_score p n total.
Proof.
  intros Hn Hp Ht. unfold nss_score. apply clamp_above.
  pose proof (density_factor_pos Ht) as Hf.
  pose proof eps_pos as He.
  assert (Hi : 0 < / total) by now apply Rinv_0_lt_compat.
  assert (Hnum : 0 < p / total - n / total).
  { unfold Rdiv. rewrite <- Rmult_minus_distr_r. apply Rmult_lt_0_compat; lra. }
  assert (Hden : 0 < p / total + n / total + eps).
  { assert (0 <= p / total) by (apply Rmult_le_pos; lra).
    assert (0 <= n / total) by (apply Rmult_le_pos; lra). lra. }
  assert (Hnss : 0 < (p / total - n / total) / (p / total + n / total + eps)).
  { apply Rmult_lt_0_compat; [assumption|]. now apply Rinv_0_lt_compat. }
  set (NSS := (p / total - n / total) / (p / total + n / total + eps)) in *.
  assert (0 < ((NSS + 1) * 50 - 50) * density_factor total)
    by (apply Rmult_lt_0_compat; lra).
  lra.
Qed.

Lemma Rmax_normalized a b :
  0 < Rmax a b -> Rmax (a / Rmax a b * 100) (b / Rmax a b * 100) = 100.
Proof.
  assert (Hdiv : forall x y, 0 < y -> x <= y -> x / y * 100 <= 100).
  { intros x y Hy Hxy.
    assert (x / y <= 1); [|lra].
    apply (Rmult_le_reg_r y); [assumption|].
    unfold Rdiv. rewrite Rmult_assoc, Rinv_l by lra. lra. }
  assert (Hone : forall y, 0 < y -> y / y * 100 = 100).
  { intros y Hy. unfold Rdiv. rewrite Rinv_r by lra. lra. }
  destruct (Rle_dec a b) as [Hab|Hab].
  - rewrite (Rmax_right a b) by assumption. intros Hm.
    rewrite (Hone b Hm). apply Rmax_right. apply Hdiv; lra.
  - rewrite (Rmax_left a b) by lra. intros Hm.
    rewrite (Hone a Hm). apply Rmax_left. apply Hdiv; lra.
Qed.

(** C1: when every stored TF-IDF value is non-negative, each row saved for the
    year has its three scores and its two normalized densities in [0, 100]. *)
Theorem C1_scores_in_range (db : year_tables) (q : quant_score) :
  valid_rows (tfidf_scores db) ->
  In q (calculate_scores_for_year db) ->
  0 <= investment_attitude_score q <= 100 /\
  0 <= china_investment_score q <= 100 /\
  0 <= non_china_investment_score q <= 100 /\
  0 <= china_investment_density_normalized q <= 100 /\
  0 <= non_china_investment_density_normalized q <= 100.
Proof.
  intros Hv Hq.
  destruct (calculate_scores_for_year_inv db q Hq) as (tk & m & sd & _ & _ & ->).
  apply final_scores_bounded, calculate_company_scores_valid.
  now apply get_tfidf_scores_valid.
Qed.

Lemma C1_scores_in_range_witness :
  let db := tables_of ["AAPL"%string]
              [row_of "AAPL" "expansion" (3 / 10);
               row_of "AAPL" "china_positive" (2 / 10)] in
  valid_rows (tfidf_scores db) /\
  length (calculate_scores_for_year db) = 1%nat /\
  Forall (fun q =>
            0 <= investment_attitude_score q <= 100 /\
            0 <= china_investment_score q <= 100 /\
            0 <= non_china_investment_score q <= 100 /\
            0 <= china_investment_density_normalized q <= 100 /\
            0 <= non_china_investment_density_normalized q <= 100)
         (calculate_scores_for_year db).
Proof.
  intros db.
  assert (Hv : valid_rows (tfidf_scores db)) by (repeat constructor; simpl; lra).
  split; [exact Hv|]. split; [reflexivity|].
  apply Forall_forall. intros q Hq. exact (C1_scores_in_range db q Hv Hq).
Defined.

(** C6: in a year with the two companies A (expansion 0.8, contraction 0.1,
    other sums 0) and B (expansion 0.1, contraction 0.1, other sums 0), both
    are scored, A's investment attitude score is above 50 and above B's. *)
Theorem C6_expansion_scenario (db : year_tables) (a b : str) :
  get_companies_by_year db = [a; b] ->
  category_sums (get_tfidf_scores db a) (8 / 10) (1 / 10) 0 0 0 ->
  category_sums (get_tfidf_scores db b) (1 / 10) (1 / 10) 0 0 0 ->
  exists qa qb,
    calculate_scores_for_year db = [qa; qb] /\
    qs_ticker qa = a /\ qs_ticker qb = b /\
    50 < investment_attitude_score qa /\
    investment_attitude_score qb < investment_attitude_score qa.
Proof.
  intros Hc (Ea & Ca & CPa & CNa & NCa) (Eb & Cb & CPb & CNb & NCb).
  unfold calculate_scores_for_year, collect_raw_scores. rewrite Hc.
  cbn [flat_map].
  destruct (get_tfidf_scores db a) as [|ra rowsa] eqn:Ra.
  { rewrite category_sum_nil in Ea. lra. }
  destruct (get_tfidf_scores db b) as [|rb rowsb] eqn:Rb.
  { rewrite category_sum_nil in Eb. lra. }
  cbn [app map]. do 2 eexists. split; [reflexivity|].
  split; [reflexivity|]. split; [reflexivity|].
  cbn [final_scores investment_attitude_score calculate_company_scores
       expansion_score contraction_score total_tfidf].
  rewrite Ea, Ca, CPa, CNa, NCa, Eb, Cb, CPb, CNb, NCb.
  pose proof eps_pos as He.
  rewrite nss_score_balanced.
  assert (50 < nss_score (8 / 10) (1 / 10) (8 / 10 + 1 / 10 + 0 + 0 + 0 + eps))
    by (apply nss_score_positive; lra).
  lra.
Qed.

Lemma C6_expansion_scenario_witness :
  exists qa qb,
    calculate_scores_for_year
      (tables_of ["A"%string; "B"%string]
         [row_of "A" "expansion" (8 / 10); row_of "A" "contraction" (1 / 10);
          row_of "B" "expansion" (1 / 10); row_of "B" "contraction" (1 / 10)])
    = [qa; qb] /\
    qs_ticker qa = lit "A" /\ qs_ticker qb = lit "B" /\
    50 < investment_attitude_score qa /\
    investment_attitude_score qb < investment_attitude_score qa.
Proof.
  apply C6_expansion_scenario.
  - reflexivity.
  - unfold category_sums, category_sum, py_sum. simpl. repeat split; lra.
  - unfold category_sums, category_sum, py_sum. simpl. repeat split; lra.
Defined.

Lemma final_scores_raw m sd s :
  let q := final_scores m sd s in
  qs_expansion_score q = expansion_score s /\
  qs_contraction_score q = contraction_score s /\
  qs_china_positive_score q = china_positive_score s /\
  qs_china_negative_score q = china_negative_score s /\
  qs_non_china_raw_score q = non_china_raw_score s.
Proof. simpl. auto. Qed.

Lemma zero_density total : 0 / total * 100 = 0.
Proof. unfold Rdiv. rewrite Rmult_0_l. lra. Qed.

(** C9: when every stored TF-IDF value is non-negative and the five category
    sums of a scored company add up to 0, its total is exactly [eps], the
    density factor [ln (1 + k * total)] lies in (0, k * eps), both
    density-corrected scores are 50 and both normalized densities are 50. *)
Theorem C9_neutral_default (db : year_tables) (q : quant_score) :
  valid_rows (tfidf_scores db) ->
  In q (calculate_scores_for_year db) ->
  qs_expansion_score q + qs_contraction_score q + qs_china_positive_score q
  + qs_china_negative_score q + qs_non_china_raw_score q = 0 ->
  (exists s,
     s = calculate_company_scores (qs_ticker q) (get_tfidf_scores db (qs_ticker q)) /\
     total_tfidf s = eps /\
     0 < density_factor (total_tfidf s) < k * eps) /\
  investment_attitude_score q = 50 /\
  china_investment_score q = 50 /\
  china_investment_density_normalized q = 50 /\
  non_china_investment_density_normalized q = 50.
Proof.
  intros Hv Hq Hsum.
  destruct (calculate_scores_for_year_inv db q Hq) as (tk & m & sd & _ & _ & ->).
  pose proof (calculate_company_scores_valid tk (get_tfidf_scores_valid db tk Hv)) as Hs.
  set (s := calculate_company_scores tk (get_tfidf_scores db tk)) in *.
  destruct (final_scores_raw m sd s) as (E1 & E2 & E3 & E4 & E5).
  rewrite E1, E2, E3, E4, E5 in Hsum.
  destruct Hs as (H1 & H2 & H3 & H4 & H5 & Ht).
  assert (Z1 : expansion_score s = 0) by lra.
  assert (Z2 : contraction_score s = 0) by lra.
  assert (Z3 : china_positive_score s = 0) by lra.
  assert (Z4 : china_negative_score s = 0) by lra.
  assert (Z5 : non_china_raw_score s = 0) by lra.
  assert (Te : total_tfidf s = eps) by lra.
  pose proof eps_pos as He.
  split.
  - exists s. split; [reflexivity|]. split; [exact Te|]. rewrite Te. split.
    + now apply density_factor_pos.
    + now apply density_factor_small.
  - clearbody s. unfold final_scores. simpl.
    rewrite Z1, Z2, Z3, Z4, Z5, !nss_score_balanced, !zero_density.
    unfold Rmax. destruct (Rle_dec 0 0); destruct (Rlt_dec 0 0); try lra; auto.
Qed.

Lemma C9_neutral_default_witness :
  let db := tables_of ["IDLE"%string] [row_of "IDLE" "expansion" 0] in
  valid_rows (tfidf_scores db) /\
  length (calculate_scores_for_year db) = 1%nat /\
  Forall (fun q =>
            (exists s,
               s = calculate_company_scores (qs_ticker q)
                     (get_tfidf_scores db (qs_ticker q)) /\
               total_tfidf s = eps /\
               0 < density_factor (total_tfidf s) < k * eps) /\
            investment_attitude_score q = 50 /\
            china_investment_score q = 50 /\
            china_investment_density_normalized q = 50 /\
            non_china_investment_density_normalized q = 50)
         (calculate_scores_for_year db).
Proof.
  intros db.
  assert (Hv : valid_rows (tfidf_scores db)) by (repeat constructor; simpl; lra).
  split; [exact Hv|]. split; [reflexivity|].
  apply Forall_forall. intros q Hq.
  apply (C9_neutral_default db q Hv Hq).
  destruct Hq as [<-|[]]. simpl.
  unfold category_sum, py_sum, row_of. simpl. lra.
Defined.

(** C10: for every saved row whose larger raw density is positive, the larger
    normalized density is exactly 100; and when every stored TF-IDF value is
    non-negative, a saved row has both normalized densities 50 if both raw
    densities are 0, and the larger normalized density exactly 100 otherwise. *)
Theorem C10_normalized_density_peak (db : year_tables) :
  (forall q, In q (calculate_scores_for_year db) ->
     0 < Rmax (china_investment_density q) (non_china_investment_density q) ->
     Rmax (china_investment_density_normalized q)
          (non_china_investment_density_normalized q) = 100) /\
  (valid_rows (tfidf_scores db) ->
   forall q, In q (calculate_scores_for_year db) ->
     (china_investment_density q = 0 /\ non_china_investment_density q = 0 ->
      china_investment_density_normalized q = 50 /\
      non_china_investment_density_normalized q = 50) /\
     (~ (china_investment_density q = 0 /\ non_china_investment_density q = 0) ->
      Rmax (china_investment_density_normalized q)
           (non_china_investment_density_normalized q) = 100)).
Proof.
  assert (Hpeak : forall m sd s,
            let q := final_scores m sd s in
            0 < Rmax (china_investment_density q) (non_china_investment_density q) ->
            Rmax (china_investment_density_normalized q)
                 (non_china_investment_density_normalized q) = 100).
  { intros m sd s q Hm. subst q. unfold final_scores in *. simpl in *.
    destruct (Rlt_dec 0 _) as [Hpos|Hneg]; [|contradiction].
    now apply Rmax_normalized. }
  split.
  - intros q Hq.
    destruct (calculate_scores_for_year_inv db q Hq) as (tk & m & sd & _ & _ & ->).
    apply Hpeak.
  - intros Hv q Hq.
    destruct (calculate_scores_for_year_inv db q Hq) as (tk & m & sd & _ & _ & ->).
    pose proof (calculate_company_scores_valid tk (get_tfidf_scores_valid db tk Hv)) as Hs.
    set (s := calculate_company_scores tk (get_tfidf_scores db tk)) in *.
    pose proof (valid_raw_total_pos Hs) as Ht.
    destruct Hs as (_ & _ & H3 & _ & H5 & _).
    pose proof (density_nonneg H3 Ht) as Hcd.
    pose proof (density_nonneg H5 Ht) as Hncd.
    clearbody s. split.
    + intros [Z1 Z2]. unfold final_scores in *. simpl in *.
      rewrite Z1, Z2. unfold Rmax.
      destruct (Rle_dec 0 0); destruct (Rlt_dec 0 0); try lra; auto.
    + intros Hnz. apply Hpeak. unfold final_scores. simpl.
      unfold final_scores in Hnz. simpl in Hnz.
      unfold Rmax. destruct (Rle_dec _ _); lra.
Qed.

Lemma C10_normalized_density_peak_witness :
  let db := tables_of ["ACME"%string; "IDLE"%string]
              [row_of "ACME" "china_positive" (1 / 10);
               row_of "ACME" "non_china_regions" (3 / 10);
               row_of "IDLE" "expansion" (2 / 10)] in
  valid_rows (tfidf_scores db) /\
  length (calculate_scores_for_year db) = 2%nat /\
  Forall (fun q =>
            (china_investment_density q = 0 /\ non_china_investment_density q = 0 ->
             china_investment_density_normalized q = 50 /\
             non_china_investment_density_normalized q = 50) /\
            (~ (china_investment_density q = 0 /\ non_china_investment_density q = 0) ->
             Rmax (china_investment_density_normalized q)
                  (non_china_investment_density_normalized q) = 100))
         (calculate_scores_for_year db).
Proof.
  intros db.
  assert (Hv : valid_rows (tfidf_scores db)) by (repeat constructor; simpl; lra).
  split; [exact Hv|]. split; [reflexivity|].
  apply Forall_forall. intros q Hq.
  exact (proj2 (C10_normalized_density_peak db) Hv q Hq).
Defined.

End ScoreClaims.

(** ** TF-IDF rows *)

Import TFIDF.

Lemma str_eqb_eq a b : str_eqb a b = true <-> a = b.
Proof.
  revert b. induction a as [|c a IH]; intros [|d b]; simpl; split; intros H;
    try reflexivity; try discriminate.
  - apply andb_true_iff in H. destruct H as [H1 H2].
    apply Ascii.eqb_eq in H1. apply IH in H2. congruence.
  - inversion H; subst. rewrite Ascii.eqb_refl. simpl. now apply IH.
Qed.

Lemma dict_set_Forall (V : Type) (P : str * V -> Prop) d k v :
  Forall P d -> P (k, v) -> Forall P (dict_set d k v).
Proof.
  intros Hd Hkv. induction Hd as [|[k' v'] d Hx Hd IH]; simpl.
  - constructor; [assumption|constructor].
  - destruct (str_eqb k' k) eqn:E.
    + apply str_eqb_eq in E. subst. constructor; assumption.
    + constructor; assumption.
Qed.

Lemma dict_get_In (V : Type) (d : dict V) k v :
  dict_get d k = Some v -> In (k, v) d.
Proof.
  induction d as [|[k' v'] d IH]; simpl; [discriminate|].
  destruct (str_eqb k' k) eqn:E.
  - apply str_eqb_eq in E. intros H. inversion H; subst. now left.
  - intros H. right. auto.
Qed.

Section TFIDFFacts.

Open Scope R_scope.

Variable texts : list str.

Lemma add_keyword_ok d kw :
  Forall (entry_ok texts) d -> Forall (entry_ok texts) (add_keyword texts d kw).
Proof.
  intros Hd. unfold add_keyword.
  destruct (Rlt_dec 0 _) as [Hpos|Hneg]; [|assumption].
  apply dict_set_Forall; [assumption|].
  unfold entry_ok. simpl. auto.
Qed.

Lemma build_year_tfidf_ok keywords :
  Forall (entry_ok texts) (build_year_tfidf texts keywords).
Proof.
  unfold build_year_tfidf.
  assert (G : forall d, Forall (entry_ok texts) d ->
                        Forall (entry_ok texts) (fold_left (add_keyword texts) keywords d)).
  { induction keywords as [|kw kws IH]; intros d Hd; simpl; [assumption|].
    apply IH. now apply add_keyword_ok. }
  apply G. constructor.
Qed.

Lemma segment_count_absent kw_text :
  Forall (fun text => contains (lower text) kw_text = false) texts ->
  segment_count texts kw_text = 0%nat.
Proof.
  intros H. unfold segment_count.
  induction H as [|text rest Ht _ IH]; simpl; [reflexivity|].
  now rewrite Ht.
Qed.

Lemma keyword_idf_absent kw_text :
  segment_count texts kw_text = 0%nat -> keyword_idf texts kw_text = 0.
Proof. intros H. unfold keyword_idf. now rewrite H. Qed.

End TFIDFFacts.

(** Every row handed to the store comes from an entry of [year_tfidf]. *)
Lemma calculate_tfidf_for_year_inv db keywords row :
  In row (calculate_tfidf_for_year db keywords) ->
  exists e,
    In (keyword row, e) (build_year_tfidf (all_texts db) keywords) /\
    tfidf row = ye_tfidf e.
Proof.
  unfold calculate_tfidf_for_year.
  destruct (all_texts db) as [|t0 ts] eqn:Et; [intros []|].
  destruct (get_companies_by_year db) as [|c0 cs] eqn:Ec; [intros []|].
  intros Hin. apply in_flat_map in Hin. destruct Hin as [tk [_ Hin]].
  unfold company_rows in Hin. apply in_map_iff in Hin.
  destruct Hin as [[kw e] [<- Hin]]. apply filter_In in Hin.
  exists e. simpl. tauto.
Qed.

Section TFIDFClaims.

Open Scope R_scope.

(** C7: a keyword that (compared in lower case) occurs in none of the year's
    segments has idf 0 and no row of the year carries it; any keyword whose
    tf * idf is not positive has no entry in the year's keyword set; and every
    row emitted for the year has tfidf > 0. *)
Theorem C7_absent_keyword_excluded (db : year_tables) (keywords : list keyword_rec) :
  (forall kw : keyword_rec,
     Forall (fun text => contains (lower text) (lower (kw_keyword kw)) = false)
            (all_texts db) ->
     keyword_idf (all_texts db) (lower (kw_keyword kw)) = 0 /\
     forall row, In row (calculate_tfidf_for_year db keywords) ->
                 keyword row <> lower (kw_keyword kw)) /\
  (forall kw : keyword_rec,
     keyword_tf (all_texts db) (lower (kw_keyword kw))
     * keyword_idf (all_texts db) (lower (kw_keyword kw)) <= 0 ->
     dict_get (build_year_tfidf (all_texts db) keywords) (lower (kw_keyword kw)) = None) /\
  (forall row, In row (calculate_tfidf_for_year db keywords) -> 0 < tfidf row).
Proof.
  pose proof (build_year_tfidf_ok (all_texts db) keywords) as Hok.
  rewrite Forall_forall in Hok.
  split; [|split].
  - intros kw Habs.
    assert (Hidf : keyword_idf (all_texts db) (lower (kw_keyword kw)) = 0)
      by (apply keyword_idf_absent, segment_count_absent, Habs).
    split; [exact Hidf|].
    intros row Hrow Heq.
    destruct (calculate_tfidf_for_year_inv _ _ _ Hrow) as [e [He _]].
    destruct (Hok _ He) as (_ & Hw & Hpos). simpl in Hw, Hpos.
    rewrite Hw, Heq, Hidf in Hpos. lra.
  - intros kw Hle.
    destruct (dict_get _ _) as [e|] eqn:E; [|reflexivity].
    apply dict_get_In in E.
    destruct (Hok _ E) as (_ & Hw & Hpos). simpl in Hw, Hpos. lra.
  - intros row Hrow.
    destruct (calculate_tfidf_for_year_inv _ _ _ Hrow) as [e [He ->]].
    now destruct (Hok _ He) as (_ & _ & Hpos).
Qed.

Lemma C7_absent_keyword_excluded_witness :
  Forall (fun text => contains (lower text) (lower (lit "Brazil")) = false)
         (all_texts example_year) /\
  keyword_idf (all_texts example_year) (lower (lit "Brazil")) = 0 /\
  forall row, In row (calculate_tfidf_for_year example_year example_keywords) ->
              keyword row <> lower (lit "Brazil").
Proof.
  assert (H : Forall (fun text => contains (lower text) (lower (lit "Brazil")) = false)
                     (all_texts example_year))
    by (repeat constructor).
  split; [exact H|].
  exact (proj1 (C7_absent_keyword_excluded example_year example_keywords)
               {| kw_keyword := lit "Brazil"; kw_category := lit "non_china_regions" |} H).
Defined.

(** The keyword that does occur is emitted, under its lower-case form. *)
Example present_keyword_emitted :
  exists row,
    In row (calculate_tfidf_for_year example_year example_keywords) /\
    ticker row = lit "ACME" /\ keyword row = lit "china" /\
    tfidf row = 1 / 5 * ln 2.
Proof.
  assert (Htf : keyword_tf (all_texts example_year) (lit "china") = 1 / 5).
  { unfold keyword_tf. simpl. lra. }
  assert (Hidf : keyword_idf (all_texts example_year) (lit "china") = ln 2).
  { unfold keyword_idf. simpl. f_equal. lra. }
  assert (Hln : 0 < ln 2) by (pose proof ln_lt_2; lra).
  assert (Hb : keyword_idf (all_texts example_year) (lit "brazil") = 0) by reflexivity.
  unfold calculate_tfidf_for_year, build_year_tfidf, example_keywords.
  change (all_texts example_year)
    with [lit "China expansion plan"; lit "other markets"] in *.
  cbn [get_companies_by_year companies example_year fold_left flat_map].
  unfold add_keyword at 2. cbn [kw_keyword kw_category].
  change (lower (lit "China")) with (lit "china").
  rewrite Htf, Hidf.
  destruct (Rlt_dec 0 (1 / 5 * ln 2)) as [_|Hn]; [|exfalso; apply Hn; lra].
  unfold add_keyword. cbn [kw_keyword kw_category].
  change (lower (lit "Brazil")) with (lit "brazil").
  rewrite Hb, Rmult_0_r.
  destruct (Rlt_dec 0 0) as [Hn|_]; [lra|].
  eexists. split; [left; reflexivity|]. auto.
Qed.

End TFIDFClaims.

(** ** The aggregator *)

Import Extraction.

Lemma str_eqb_refl a : str_eqb a a = true.
Proof. now apply str_eqb_eq. Qed.

Lemma str_eqb_neq a b : a <> b -> str_eqb a b = false.
Proof.
  intros H. destruct (str_eqb a b) eqn:E; [|reflexivity].
  apply str_eqb_eq in E. contradiction.
Qed.

Lemma dict_get_set (V : Type) (d : dict V) k v k' :
  dict_get (dict_set d k v) k' = if str_eqb k k' then Some v else dict_get d k'.
Proof.
  induction d as [|[k0 v0] d IH]; simpl.
  - reflexivity.
  - destruct (str_eqb k0 k) eqn:E0; simpl.
    + apply str_eqb_eq in E0. subst k0.
      destruct (str_eqb k k'); reflexivity.
    + destruct (str_eqb k0 k') eqn:E1.
      * apply str_eqb_eq in E1. subst k'.
        destruct (str_eqb k k0) eqn:E2; [|reflexivity].
        apply str_eqb_eq in E2. subst. rewrite str_eqb_refl in E0. discriminate.
      * exact IH.
Qed.

Lemma dict_get_absent (V : Type) (d : dict V) k :
  ~ In k (map fst d) -> dict_get d k = None.
Proof.
  induction d as [|[k0 v0] d IH]; simpl; intros H; [reflexivity|].
  rewrite str_eqb_neq by tauto. apply IH. tauto.
Qed.

Lemma all_lists_get all key v :
  all_lists all -> dict_get all key = Some v -> exists l, v = JList l.
Proof.
  intros Ha Hg. apply dict_get_In in Hg.
  unfold all_lists in Ha. rewrite Forall_forall in Ha.
  exact (Ha _ Hg).
Qed.

Lemma merge_entry_spec all key value :
  all_lists all ->
  exists all',
    merge_entry all (key, value) = Return all' /\
    all_lists all' /\
    forall k', dict_get all' k'
               = if str_eqb key k' then Some (JList (prior all key ++ elems value))
                 else dict_get all k'.
Proof.
  intros Ha. unfold merge_entry, prior.
  destruct (dict_get all key) as [cur|] eqn:Eg.
  - destruct (all_lists_get _ Ha Eg) as [a ->].
    exists (dict_set all key (JList (a ++ elems value))). split; [|split].
    + destruct value; reflexivity.
    + apply dict_set_Forall; [assumption|]. simpl. eauto.
    + intros k'. apply dict_get_set.
  - exists (dict_set all key (JList (elems value))). split; [|split].
    + destruct value; reflexivity.
    + apply dict_set_Forall; [assumption|]. simpl. eauto.
    + intros k'. apply dict_get_set.
Qed.

Lemma merge_structured_cons all kv rest :
  merge_structured all (kv :: rest)
  = (all' <- merge_entry all kv ;; merge_structured all' rest).
Proof. reflexivity. Qed.

Lemma merge_results_cons acc result rest :
  merge_results acc (result :: rest)
  = (acc' <- merge_result acc result ;; merge_results acc' rest).
Proof. reflexivity. Qed.

Lemma merge_structured_spec items : forall all,
  NoDup (map fst items) -> all_lists all ->
  exists all',
    merge_structured all items = Return all' /\
    all_lists all' /\
    forall k', dict_get all' k'
               = match dict_get items k' with
                 | Some v => Some (JList (prior all k' ++ elems v))
                 | None => dict_get all k'
                 end.
Proof.
  induction items as [|[k0 v0] rest IH]; intros all Hnd Ha.
  - exists all. simpl. auto.
  - simpl in Hnd. inversion Hnd as [|? ? Hnotin Hrest]; subst.
    destruct (merge_entry_spec k0 v0 Ha) as (all1 & E1 & Ha1 & G1).
    destruct (IH all1 Hrest Ha1) as (all' & E' & Ha' & G').
    exists all'. split; [|split].
    + rewrite merge_structured_cons, E1. exact E'.
    + exact Ha'.
    + intros k'. rewrite G'. simpl.
      destruct (str_eqb k0 k') eqn:E0.
      * apply str_eqb_eq in E0. subst k'.
        rewrite (dict_get_absent _ _ Hnotin), G1, str_eqb_refl. reflexivity.
      * unfold prior. rewrite !G1, E0. reflexivity.
Qed.

(** Merging a well-formed chunk result: the segments are appended and every
    key of its structured data is extended by the value's elements. *)
Lemma merge_result_spec all segs0 sd segs :
  NoDup (map fst sd) -> all_lists all ->
  exists all',
    merge_result (all, segs0) (extraction_result sd segs) = Return (all', segs0 ++ segs) /\
    all_lists all' /\
    forall k', dict_get all' k'
               = match dict_get sd k' with
                 | Some v => Some (JList (prior all k' ++ elems v))
                 | None => dict_get all k'
                 end.
Proof.
  intros Hnd Ha.
  destruct (@merge_structured_spec sd all Hnd Ha) as (all' & E & Ha' & G).
  exists all'. split; [|split; assumption].
  unfold merge_result, extraction_result.
  change (py_get (JDict [(lit "structured_data", JDict sd); (lit "text_segments", JList segs)])
                 (lit "structured_data") (JDict []))
    with (Return (JDict sd)).
  change (py_get (JDict [(lit "structured_data", JDict sd); (lit "text_segments", JList segs)])
                 (lit "text_segments") (JList []))
    with (Return (JList segs)).
  simpl. rewrite E. reflexivity.
Qed.

Lemma merge_results_segments rs : forall all segs0,
  Forall (fun r => NoDup (map fst (fst r))) rs -> all_lists all ->
  exists all',
    merge_results (all, segs0) (map (fun r => extraction_result (fst r) (snd r)) rs)
    = Return (all', segs0 ++ concat (map snd rs)).
Proof.
  induction rs as [|[sd segs] rs IH]; intros all segs0 Hwf Ha.
  - exists all. simpl. now rewrite app_nil_r.
  - inversion Hwf as [|? ? Hnd Hrest]; subst. simpl in Hnd.
    destruct (@merge_result_spec all segs0 sd segs Hnd Ha) as (all1 & E1 & Ha1 & _).
    destruct (IH all1 (segs0 ++ segs) Hrest Ha1) as (all' & E').
    exists all'. cbn [map fst snd]. rewrite merge_results_cons, E1. cbn [bind].
    rewrite E'. now rewrite <- app_assoc.
Qed.

(** The chunked mode is the aggregator applied to the chunk results. *)
Lemma chunked_loop_merges svc n chunks rs :
  answered svc n chunks rs ->
  forall acc, fst (chunked_loop svc chunks acc n) = merge_results acc rs.
Proof.
  induction 1 as [n|n n' chunk chunks r rs E _ IH]; intros acc.
  - reflexivity.
  - cbn [chunked_loop]. rewrite E, merge_results_cons.
    destruct (merge_result acc r) as [acc'|e]; simpl; [apply IH | reflexivity].
Qed.

(** C8: merging well-formed results concatenates their text segments in input
    order, each result's own order kept; and for a key that is list-valued in
    both of two merged results, with 2 and 3 elements, the merged value is the
    one list of the 2 elements followed by the 3, of length 5. *)
Theorem C8_merge_preserves_order :
  (forall rs : list (dict json * list json),
     Forall (fun r => NoDup (map fst (fst r))) rs ->
     exists all,
       merge_results ([], []) (map (fun r => extraction_result (fst r) (snd r)) rs)
       = Return (all, concat (map snd rs))) /\
  (forall sd1 segs1 sd2 segs2 key l1 l2,
     NoDup (map fst sd1) -> NoDup (map fst sd2) ->
     dict_get sd1 key = Some (JList l1) ->
     dict_get sd2 key = Some (JList l2) ->
     length l1 = 2 -> length l2 = 3 ->
     exists all,
       merge_results ([], []) [extraction_result sd1 segs1; extraction_result sd2 segs2]
       = Return (all, segs1 ++ segs2) /\
       dict_get all key = Some (JList (l1 ++ l2)) /\
       length (l1 ++ l2) = 5).
Proof.
  split.
  - intros rs Hwf.
    destruct (@merge_results_segments rs [] [] Hwf (Forall_nil _)) as [all E].
    exists all. exact E.
  - intros sd1 segs1 sd2 segs2 key l1 l2 Hnd1 Hnd2 G1 G2 L1 L2.
    destruct (@merge_result_spec [] [] sd1 segs1 Hnd1 (Forall_nil _))
      as (all1 & E1 & Ha1 & K1).
    destruct (@merge_result_spec all1 segs1 sd2 segs2 Hnd2 Ha1)
      as (all2 & E2 & Ha2 & K2).
    exists all2. split; [|split].
    + unfold dict in *.
      rewrite merge_results_cons, E1. cbn [bind app].
      rewrite merge_results_cons, E2. reflexivity.
    + rewrite K2, G2. unfold prior. rewrite K1, G1. reflexivity.
    + rewrite length_app. lia.
Qed.

Lemma C8_merge_preserves_order_witness :
  exists all,
    merge_results ([], [])
      [extraction_result
         [(lit "foreign_investments", JList [JStr (lit "DE"); JStr (lit "FR")])]
         [JStr (lit "s1"); JStr (lit "s2")];
       extraction_result
         [(lit "foreign_investments",
           JList [JStr (lit "JP"); JStr (lit "IN"); JStr (lit "BR")])]
         [JStr (lit "s3")]]
    = Return (all, [JStr (lit "s1"); JStr (lit "s2")] ++ [JStr (lit "s3")]) /\
    dict_get all (lit "foreign_investments")
    = Some (JList ([JStr (lit "DE"); JStr (lit "FR")]
                   ++ [JStr (lit "JP"); JStr (lit "IN"); JStr (lit "BR")])) /\
    length ([JStr (lit "DE"); JStr (lit "FR")]
            ++ [JStr (lit "JP"); JStr (lit "IN"); JStr (lit "BR")]) = 5.
Proof.
  apply (proj2 C8_merge_preserves_order); try reflexivity;
    (constructor; [intros [] | constructor]).
Defined.

(** ** The extraction client *)

Lemma attribute_error_not_token v attr :
  attr = "get"%string \/ attr = "items"%string ->
  mentions_token_limit (exn_msg (no_attribute v attr)) = false.
Proof. intros [-> | ->]; destruct v; reflexivity. Qed.

Lemma validate_result_raise result more e :
  validate_result result more = Raise e ->
  mentions_token_limit (exn_msg e) = false.
Proof.
  unfold validate_result.
  destruct result as [| b | z | t | l | d];
    try (simpl; intros H; inversion H; subst; reflexivity).
  cbn [py_get bind].
  destruct (negb _ && more); [discriminate|].
  destruct (match dict_get d (lit "text_segments") with
            | Some x => x
            | None => JList []
            end) as [| b | z | t | l | d'];
    simpl; intros H; inversion H; subst; reflexivity.
Qed.

(** The single-chunk procedure returns on every service behaviour. *)
Lemma single_chunk_attempts_returns svc text max_retries :
  forall remaining attempt n,
  exists v n',
    single_chunk_attempts svc text max_retries remaining attempt n = (Return v, n').
Proof.
  induction remaining as [|r IH]; intros attempt n.
  - simpl. eauto.
  - cbn [single_chunk_attempts].
    destruct (svc n text) as [result|e].
    + destruct (py_get result (lit "text_segments") JNull) as [segs|e].
      * destruct (negb (truthy segs) && (attempt <? max_retries - 1)); [apply IH | eauto].
      * destruct (attempt <? max_retries - 1); [apply IH | eauto].
    + destruct (attempt <? max_retries - 1); [apply IH | eauto].
Qed.

(** In single mode the retry loop returns: every exception is caught. *)
Lemma extract_attempts_returns svc text max_retries :
  no_token_errors svc text ->
  forall remaining attempt n,
  exists v n',
    extract_attempts svc text max_retries remaining attempt n = (Return v, n').
Proof.
  intros Hno. induction remaining as [|r IH]; intros attempt n.
  - simpl. eauto.
  - cbn [extract_attempts].
    destruct (svc n text) as [result|e] eqn:Es.
    + destruct (validate_result result (attempt <? max_retries - 1))
        as [[result'|]|e] eqn:Ev.
      * eauto.
      * apply IH.
      * rewrite (validate_result_raise _ _ Ev).
        destruct (attempt <? max_retries - 1); [apply IH | eauto].
    + destruct (is_json_decode_error e) eqn:Ej.
      * destruct (attempt <? max_retries - 1); [apply IH | eauto].
      * rewrite (Hno _ _ Es Ej).
        destruct (attempt <? max_retries - 1); [apply IH | eauto].
Qed.

(** Three failed requests in single mode give the empty result. *)
Lemma llm_extract_exhausted svc text n :
  (estimate_tokens text <= 100000)%Z ->
  (forall i, exists e,
      svc i text = Failure e /\
      (is_json_decode_error e = true \/ mentions_token_limit (exn_msg e) = false)) ->
  llm_extract svc text default_max_retries n = (Return empty_result, n + 3).
Proof.
  intros Hsize Hfail. unfold llm_extract.
  destruct (Z.ltb_spec 100000 (estimate_tokens text)); [lia|].
  assert (Hstep : forall r attempt i,
             extract_attempts svc text 3 (S r) attempt i
             = if attempt <? 2 then extract_attempts svc text 3 r (S attempt) (S i)
               else (Return empty_result, S i)).
  { intros r attempt i. cbn [extract_attempts].
    destruct (Hfail i) as [e [-> [Hj|Ht]]].
    - rewrite Hj. reflexivity.
    - rewrite Ht. destruct (is_json_decode_error e); reflexivity. }
  unfold default_max_retries. rewrite !Hstep. simpl. f_equal. lia.
Qed.

(** In single mode [llm_extract] returns to its caller. *)
Lemma llm_extract_single_mode_returns svc text n :
  (estimate_tokens text <= 100000)%Z ->
  no_token_errors svc text ->
  exists v n', llm_extract svc text default_max_retries n = (Return v, n').
Proof.
  intros Hsize Hno. unfold llm_extract.
  destruct (Z.ltb_spec 100000 (estimate_tokens text)); [lia|].
  now apply extract_attempts_returns.
Qed.

(** A reply that is not an object is caught three times, then the empty
    result is returned. *)
Example single_mode_bad_shape :
  llm_extract (fun _ _ => Reply (JList [])) (lit "Annual report of ACME Corp.")
              default_max_retries 0
  = (Return empty_result, 3).
Proof. reflexivity. Qed.

(** In single mode the reply with a [null] [structured_data] is handed back
    as it is. *)
Example single_mode_null_structured :
  llm_extract always_null_structured (lit "Annual report of ACME Corp.")
              default_max_retries 0
  = (Return null_structured_reply, 1).
Proof. reflexivity. Qed.

Lemma squeeze_nonempty_chunks text max_tokens chunks :
  (0 < max_tokens)%Z ->
  split_text_into_chunks text max_tokens = Return chunks ->
  squeeze text <> [] -> chunks <> [].
Proof.
  intros Hpos E Hs ->.
  destruct (split_text_into_chunks_spec text Hpos) as (chunks & E' & _ & W).
  rewrite E in E'. inversion E'; subst.
  apply ws_squeeze in W. simpl in W. congruence.
Qed.

(** In chunked mode a chunk reply whose [structured_data] is [null] makes the
    merge raise, and nothing catches it. *)
Lemma llm_extract_chunked_raises svc text n :
  squeeze text <> [] ->
  (forall chunk, svc n chunk = Reply null_structured_reply) ->
  llm_extract_chunked svc text n = (Raise (no_attribute JNull "items"), S n).
Proof.
  intros Hs Hreply. unfold llm_extract_chunked.
  destruct (@split_text_into_chunks_spec text 100000 eq_refl) as (chunks & E & _ & _).
  rewrite E.
  pose proof (@squeeze_nonempty_chunks text 100000 chunks eq_refl E Hs) as Hne.
  destruct chunks as [|chunk rest]; [congruence|].
  cbn [chunked_loop]. unfold _llm_extract_single_chunk.
  cbn [single_chunk_attempts]. rewrite Hreply. reflexivity.
Qed.

Lemma squeeze_repeat_letter n : (0 < n)%nat -> squeeze (repeat "a"%char n) <> [].
Proof. destruct n; [lia|]. discriminate. Qed.

(** C2, as the code behaves: [llm_extract] with the default [max_retries]
    raises [AttributeError] to its caller in chunked mode, both for a text of
    400004 characters whose first chunk is answered with a [null]
    [structured_data], and for a short text rerouted to chunked mode by an
    error message containing "token". *)
Theorem C2_llm_extract_raises :
  llm_extract always_null_structured (repeat "a"%char (N.to_nat 400004))
              default_max_retries 0
  = (Raise (no_attribute JNull "items"), 1) /\
  llm_extract rate_limited_once (lit "Annual report of ACME Corp.")
              default_max_retries 0
  = (Raise (no_attribute JNull "items"), 2).
Proof.
  split.
  - unfold llm_extract.
    assert (Hlen : estimate_tokens (repeat "a"%char (N.to_nat 400004)) = 100001%Z).
    { unfold estimate_tokens. rewrite repeat_length, N_nat_Z. reflexivity. }
    rewrite Hlen. change (100000 <? 100001)%Z with true. cbn iota.
    apply llm_extract_chunked_raises.
    + apply squeeze_repeat_letter. lia.
    + reflexivity.
  - vm_compute. reflexivity.
Qed.

(** * Further properties of the chunker *)

Lemma chunk_loop_negative mc paras :
  (mc < 0)%Z -> chunk_loop mc ([], []) paras = Return ([], []).
Proof.
  intros Hmc. induction paras as [|p paras IH]; [reflexivity|].
  cbn [chunk_loop]. unfold chunk_para.
  destruct (Z.ltb_spec mc (Z.of_nat (length p))) as [_|H]; [|lia].
  unfold range0.
  destruct (Z.eqb_spec mc 0) as [H0|_]; [lia|].
  destruct (Z.ltb_spec mc 0) as [_|H]; [|lia].
  cbn [bind map flush nonempty app]. exact IH.
Qed.

(** X1: with a negative [max_tokens] the splitter returns no chunk at all,
    whatever the text: every paragraph counts as over-long and
    [range(0, len(para), max_chars)] is empty. *)
Theorem negative_budget_drops_text (text : str) (max_tokens : Z) :
  (max_tokens < 0)%Z ->
  split_text_into_chunks text max_tokens = Return [].
Proof.
  intros Hneg. unfold split_text_into_chunks.
  destruct (Z.leb_spec (Z.of_nat (length text)) (max_tokens * 4)) as [H|_]; [lia|].
  rewrite chunk_loop_negative by lia. reflexivity.
Qed.

Lemma negative_budget_drops_text_witness :
  split_text_into_chunks (lit "Revenue grew in Asia.") (-1) = Return [].
Proof. apply negative_budget_drops_text. reflexivity. Defined.

Lemma chunk_loop_zero paras : forall st,
  Exists (fun para => para <> []) paras ->
  chunk_loop 0 st paras
  = Raise (Exn "ValueError" (lit "range() arg 3 must not be zero")).
Proof.
  induction paras as [|p paras IH]; intros [chunks cur] Hex.
  - inversion Hex.
  - cbn [chunk_loop]. unfold chunk_para. destruct p as [|c p].
    + cbn [length Z.of_nat Z.ltb Z.compare].
      assert (Hrest : Exists (fun para : str => para <> []) paras)
        by (inversion Hex; subst; [congruence | assumption]).
      destruct (Z.of_nat (length cur + 0 + 2) <=? 0)%Z; cbn [bind]; now apply IH.
    + destruct (Z.ltb_spec 0 (Z.of_nat (length (c :: p)))) as [_|H];
        [reflexivity | simpl in H; lia].
Qed.

(** X2: with [max_tokens = 0] the splitter raises [ValueError] on every text
    that has a non-empty paragraph: the forced split calls [range] with step
    0. *)
Theorem zero_budget_raises (text : str) :
  Exists (fun para => para <> []) (split_nn text) ->
  split_text_into_chunks text 0
  = Raise (Exn "ValueError" (lit "range() arg 3 must not be zero")).
Proof.
  intros Hex. unfold split_text_into_chunks.
  destruct text as [|c text].
  - inversion Hex as [? ? H|? ? H]; [congruence | inversion H].
  - destruct (Z.leb_spec (Z.of_nat (length (c :: text))) (0 * 4)) as [H|_];
      [simpl in H; lia|].
    change (0 * 4)%Z with 0%Z. now rewrite chunk_loop_zero.
Qed.

Lemma zero_budget_raises_witness :
  split_text_into_chunks (lit "

Revenue grew.") 0
  = Raise (Exn "ValueError" (lit "range() arg 3 must not be zero")).
Proof.
  apply zero_budget_raises. apply Exists_cons_tl. apply Exists_cons_hd. discriminate.
Defined.

Lemma flush_length chunks cur : length chunks <= length (flush chunks cur).
Proof.
  unfold flush. destruct (nonempty cur); [rewrite length_app; simpl|]; lia.
Qed.

Lemma flush_length_nonempty chunks cur :
  cur <> [] -> length (flush chunks cur) = S (length chunks).
Proof.
  intros H. unfold flush. destruct cur; [congruence|].
  simpl. rewrite length_app. simpl. lia.
Qed.

Lemma pieces_at_least_two p n :
  0 < n -> n < length p -> 2 <= length (pieces p n).
Proof.
  intros Hn Hp. rewrite pieces_count.
  replace 2 with (2 * n / n) by (apply Nat.div_mul; lia).
  apply Nat.Div0.div_le_mono. lia.
Qed.

Lemma concat_separated ps :
  ps <> [] -> concat (map (fun p => p ++ nn) ps) = join_nn ps ++ nn.
Proof.
  induction ps as [|p ps IH]; intros H; [congruence|].
  destruct ps as [|q ps].
  - simpl. now rewrite app_nil_r.
  - rewrite join_nn_cons by discriminate.
    cbn [map concat]. cbn [map concat] in IH. rewrite IH by discriminate.
    now rewrite <- !app_assoc.
Qed.

Section Oversized.

Variable mc : Z.
Hypothesis mc_pos : (0 < mc)%Z.

(** The loop state after the paragraphs [done]: two chunks are out; or one is
    out and the buffer holds more; or nothing is out yet and the buffer holds
    every paragraph seen, within the budget unless it holds just one. *)
Let pending (done : list str) (st : list str * str) : Prop :=
  2 <= length (fst st)
  \/ (1 <= length (fst st) /\ snd st <> [])
  \/ (fst st = [] /\
      snd st = concat (map (fun p => p ++ nn) done) /\
      Forall (fun p => (Z.of_nat (length p) <= mc)%Z) done /\
      (length done <= 1 \/ (Z.of_nat (length (snd st)) <= mc)%Z)).

Lemma chunk_para_pending done st p :
  pending done st ->
  exists st', chunk_para mc st p = Return st' /\ pending (done ++ [p]) st'.
Proof.
  intros HI. destruct st as [chunks cur]. unfold pending in *. simpl in HI.
  destruct (chunk_para_cases chunks cur p mc_pos) as [[Hlong E]|[[Hp [Hfit E]]|[Hp E]]];
    rewrite E; eexists; (split; [reflexivity|]); simpl.
  - left. rewrite length_app.
    pose proof (flush_length chunks cur) as Hfl.
    destruct HI as [H|[[H Hc]|[H _]]].
    + lia.
    + rewrite (flush_length_nonempty chunks Hc). lia.
    + pose proof (@pieces_at_least_two p (Z.to_nat mc) ltac:(lia) ltac:(lia)). lia.
  - destruct HI as [H|[[H Hc]|(H & Hcur & Hall & Hsmall)]].
    + now left.
    + right; left. split; [assumption|]. destruct cur; [congruence|discriminate].
    + right; right. split; [assumption|]. split; [|split].
      * subst cur. rewrite map_app, concat_app. simpl. now rewrite app_nil_r.
      * apply Forall_app. split; [assumption|]. constructor; [assumption|constructor].
      * right. rewrite !length_app. simpl. lia.
  - pose proof (flush_length chunks cur) as Hfl.
    destruct HI as [H1|[[H1 Hc]|(H1 & Hcur & Hall & Hsmall)]].
    + left. lia.
    + left. rewrite (flush_length_nonempty chunks Hc). lia.
    + subst chunks. destruct cur as [|c cur].
      * right; right. simpl. split; [reflexivity|].
        destruct done as [|q done]; [|destruct q; discriminate].
        simpl. split; [now rewrite app_nil_r|]. split.
        -- constructor; [assumption|constructor].
        -- left. lia.
      * right; left. split; [simpl; lia|]. destruct p; discriminate.
Qed.

Lemma oversized_loop text :
  (mc < Z.of_nat (length text))%Z ->
  exists st,
    chunk_loop mc ([], []) (split_nn text) = Return st /\
    2 <= length (flush (fst st) (snd st)).
Proof.
  intros Hbig.
  destruct (@chunk_loop_invariant pending mc chunk_para_pending
              (split_nn text) [] ([], [])) as [[chunks cur] [E HI]].
  { right; right. simpl. repeat split; auto. }
  exists (chunks, cur). split; [exact E|].
  simpl in HI. unfold pending in HI. simpl in HI |- *.
  pose proof (flush_length chunks cur) as Hfl.
  destruct HI as [H1|[[H1 Hc]|(H1 & Hcur & Hall & Hsmall)]].
  - lia.
  - rewrite (flush_length_nonempty chunks Hc). lia.
  - exfalso.
    rewrite concat_separated in Hcur by apply split_nn_nonempty.
    rewrite join_split_nn in Hcur.
    destruct Hsmall as [Hone|Hfit].
    + destruct (split_nn text) as [|p [|q ps]] eqn:Es; simpl in Hone; try lia.
      * now apply (split_nn_nonempty text).
      * pose proof (join_split_nn text) as J. rewrite Es in J. simpl in J. subst p.
        inversion Hall; subst. lia.
    + rewrite Hcur, length_app in Hfit. simpl in Hfit. lia.
Qed.

End Oversized.

(** X3: for a positive budget, a text longer than [max_chars] is always
    returned as at least two chunks. *)
Theorem oversized_text_is_split (text : str) (max_tokens : Z) :
  (0 < max_tokens)%Z ->
  (max_tokens * 4 < Z.of_nat (length text))%Z ->
  exists chunks,
    split_text_into_chunks text max_tokens = Return chunks /\
    2 <= length chunks.
Proof.
  intros Hpos Hbig. unfold split_text_into_chunks.
  destruct (Z.leb_spec (Z.of_nat (length text)) (max_tokens * 4)) as [H|_]; [lia|].
  destruct (@oversized_loop (max_tokens * 4)%Z ltac:(lia) text Hbig) as [st [E H2]].
  rewrite E. eexists. split; [reflexivity | exact H2].
Qed.

Lemma oversized_text_is_split_witness :
  exists chunks,
    split_text_into_chunks (lit "ab

cde") 1 = Return chunks /\
    2 <= length chunks.
Proof. apply oversized_text_is_split; reflexivity. Defined.

(** X4: the splitter never raises with the budget of the chunked mode, and
    every chunk it produces passes the size test of [llm_extract]: its
    estimated token count is at most 100000, so [llm_extract] on such a chunk
    goes straight to its request loop. *)
Theorem chunks_fit_one_request (text : str) :
  exists chunks,
    split_text_into_chunks text 100000 = Return chunks /\
    Forall (fun chunk =>
              (estimate_tokens chunk <= 100000)%Z /\
              forall svc max_retries n,
                llm_extract svc chunk max_retries n
                = extract_attempts svc chunk max_retries max_retries 0 n)
           chunks.
Proof.
  destruct (@split_text_into_chunks_spec text 100000 eq_refl) as (chunks & E & Hb & _).
  exists chunks. split; [exact E|].
  eapply Forall_impl; [|exact Hb]. simpl. intros chunk Hc.
  assert (He : (estimate_tokens chunk <= 100000)%Z).
  { unfold estimate_tokens. apply Z.div_le_upper_bound; lia. }
  split; [exact He|]. intros svc max_retries n. unfold llm_extract.
  destruct (Z.ltb_spec 100000 (estimate_tokens chunk)); [lia | reflexivity].
Qed.

(** * Further properties of the extraction client *)

Import Replies.

Lemma single_chunk_attempts_bounds svc text max_retries :
  forall remaining attempt n,
    attempt + remaining = max_retries -> 1 <= remaining ->
    exists v n',
      single_chunk_attempts svc text max_retries remaining attempt n = (Return v, n') /\
      n < n' <= n + remaining /\
      (v = empty_result \/ svc (n' - 1) text = Reply v).
Proof.
  induction remaining as [|r IH]; intros attempt n Hsum Hpos; [lia|].
  assert (Hretry : 1 <= r ->
            exists v n',
              single_chunk_attempts svc text max_retries r (S attempt) (S n) = (Return v, n') /\
              n < n' <= n + S r /\
              (v = empty_result \/ svc (n' - 1) text = Reply v)).
  { intros Hr. destruct (IH (S attempt) (S n) ltac:(lia) Hr) as (v & n' & E & B & P).
    exists v, n'. split; [exact E|]. split; [lia | exact P]. }
  assert (Hnow : exists v n',
            (Return empty_result, S n) = (Return v, n') /\
            n < n' <= n + S r /\
            (v = empty_result \/ svc (n' - 1) text = Reply v)).
  { exists empty_result, (S n). split; [reflexivity|]. split; [lia | now left]. }
  cbn [single_chunk_attempts].
  destruct (Nat.ltb_spec attempt (max_retries - 1)) as [Hmore|Hlast].
  - assert (Hr : 1 <= r) by lia.
    destruct (svc n text) as [result|e] eqn:Es; [|now apply Hretry].
    destruct (py_get result (lit "text_segments") JNull) as [segs|e]; [|now apply Hretry].
    destruct (truthy segs); cbn [negb andb]; [|now apply Hretry].
    exists result, (S n). split; [reflexivity|]. split; [lia|].
    right. now replace (S n - 1) with n by lia.
  - destruct (svc n text) as [result|e] eqn:Es; [|exact Hnow].
    destruct (py_get result (lit "text_segments") JNull) as [segs|e]; [|exact Hnow].
    rewrite andb_false_r.
    exists result, (S n). split; [reflexivity|]. split; [lia|].
    right. now replace (S n - 1) with n by lia.
Qed.

(** X5: the single-chunk procedure never raises; with [max_retries >= 1] it
    makes between one and [max_retries] requests, and what it returns is the
    empty result or the reply to the last request it made. *)
Theorem single_chunk_never_raises (svc : service) (text : str) (max_retries n : nat) :
  1 <= max_retries ->
  exists v n',
    _llm_extract_single_chunk svc text max_retries n = (Return v, n') /\
    n < n' <= n + max_retries /\
    (v = empty_result \/ svc (n' - 1) text = Reply v).
Proof.
  intros H. unfold _llm_extract_single_chunk.
  now apply single_chunk_attempts_bounds.
Qed.

Lemma single_chunk_never_raises_witness :
  exists v n',
    _llm_extract_single_chunk rate_limited_once (lit "Item 1. Business") 3 0
    = (Return v, n') /\
    0 < n' <= 0 + 3 /\
    (v = empty_result \/ rate_limited_once (n' - 1) (lit "Item 1. Business") = Reply v).
Proof. apply single_chunk_never_raises. lia. Defined.

Lemma single_chunk_attempts_first svc text max_retries j v :
  forall remaining attempt n,
    attempt + remaining = max_retries -> j < remaining ->
    (forall i, i < j -> has_segments (svc (n + i) text) = false) ->
    svc (n + j) text = Reply v -> has_segments (Reply v) = true ->
    single_chunk_attempts svc text max_retries remaining attempt n
    = (Return v, n + j + 1).
Proof.
  induction j as [|j IH]; intros remaining attempt n Hsum Hj Hbad Hgood Hv.
  - destruct remaining as [|r]; [lia|]. cbn [single_chunk_attempts].
    rewrite Nat.add_0_r in Hgood. rewrite Hgood.
    unfold has_segments in Hv.
    destruct (py_get v (lit "text_segments") JNull) as [segs|e]; [|discriminate].
    rewrite Hv. cbn [negb andb]. f_equal. lia.
  - destruct remaining as [|r]; [lia|]. cbn [single_chunk_attempts].
    assert (Hmore : (attempt <? max_retries - 1) = true) by (apply Nat.ltb_lt; lia).
    rewrite Hmore.
    assert (E : single_chunk_attempts svc text max_retries r (S attempt) (S n)
                = (Return v, n + S j + 1)).
    { rewrite (IH r (S attempt) (S n)); try lia; try assumption.
      - f_equal. lia.
      - intros i Hi. replace (S n + i) with (n + S i) by lia. apply Hbad. lia.
      - now replace (S n + j) with (n + S j) by lia. }
    pose proof (Hbad 0 ltac:(lia)) as H0. rewrite Nat.add_0_r in H0.
    unfold has_segments in H0.
    destruct (svc n text) as [result|e]; [|exact E].
    destruct (py_get result (lit "text_segments") JNull) as [segs|e]; [|exact E].
    rewrite H0. exact E.
Qed.

(** X6: the single-chunk procedure returns the first reply that carries
    segments: if the first [j] responses carry none (failures, replies that
    are not objects, replies without segments) and response [j] does, with
    [j < max_retries], that reply is returned after [j + 1] requests. *)
Theorem single_chunk_first_reply_with_segments
    (svc : service) (text : str) (max_retries n j : nat) (v : json) :
  j < max_retries ->
  (forall i, i < j -> has_segments (svc (n + i) text) = false) ->
  svc (n + j) text = Reply v ->
  has_segments (Reply v) = true ->
  _llm_extract_single_chunk svc text max_retries n = (Return v, n + j + 1).
Proof.
  intros Hj Hbad Hgood Hv. unfold _llm_extract_single_chunk.
  now apply single_chunk_attempts_first.
Qed.

Lemma single_chunk_first_reply_with_segments_witness :
  _llm_extract_single_chunk rate_limited_once (lit "Item 1. Business") 3 0
  = (Return null_structured_reply, 0 + 1 + 1).
Proof.
  apply single_chunk_first_reply_with_segments; try reflexivity; try lia.
  intros i Hi. assert (i = 0) by lia. subst. reflexivity.
Defined.

Lemma single_chunk_attempts_exhausted svc text max_retries :
  forall remaining attempt n,
    attempt + remaining = max_retries -> 1 <= remaining ->
    (forall i, i < remaining -> has_segments (svc (n + i) text) = false) ->
    single_chunk_attempts svc text max_retries remaining attempt n
    = (Return (last_resort (svc (n + remaining - 1) text)), n + remaining).
Proof.
  induction remaining as [|r IH]; intros attempt n Hsum Hpos Hbad; [lia|].
  cbn [single_chunk_attempts].
  pose proof (Hbad 0 ltac:(lia)) as H0. rewrite Nat.add_0_r in H0.
  destruct (Nat.ltb_spec attempt (max_retries - 1)) as [Hmore|Hlast].
  - assert (E : single_chunk_attempts svc text max_retries r (S attempt) (S n)
                = (Return (last_resort (svc (n + S r - 1) text)), n + S r)).
    { rewrite (IH (S attempt) (S n)); try lia.
      - replace (S n + r - 1) with (n + S r - 1) by lia.
        replace (S n + r) with (n + S r) by lia. reflexivity.
      - intros i Hi. replace (S n + i) with (n + S i) by lia. apply Hbad. lia. }
    unfold has_segments in H0.
    destruct (svc n text) as [result|e]; [|exact E].
    destruct (py_get result (lit "text_segments") JNull) as [segs|e]; [|exact E].
    rewrite H0. exact E.
  - assert (r = 0) by lia. subst r.
    replace (n + 1 - 1) with n by lia. replace (n + 1) with (S n) by lia.
    unfold last_resort.
    destruct (svc n text) as [result|e]; [|reflexivity].
    destruct (py_get result (lit "text_segments") JNull) as [segs|e]; [|reflexivity].
    now rewrite andb_false_r.
Qed.

(** X7: when none of the [max_retries] responses carries segments, the
    single-chunk procedure makes exactly [max_retries] requests; it returns
    the last reply if that is an object (even with no segments) and the empty
    result otherwise. *)
Theorem single_chunk_exhausted (svc : service) (text : str) (max_retries n : nat) :
  1 <= max_retries ->
  (forall i, i < max_retries -> has_segments (svc (n + i) text) = false) ->
  _llm_extract_single_chunk svc text max_retries n
  = (Return (last_resort (svc (n + max_retries - 1) text)), n + max_retries).
Proof.
  intros Hpos Hbad. unfold _llm_extract_single_chunk.
  now apply single_chunk_attempts_exhausted.
Qed.

Lemma single_chunk_exhausted_witness :
  _llm_extract_single_chunk
    (fun n _ => match n with
                | 2 => Reply (JDict [(lit "text_segments", JList [])])
                | _ => Failure (Exn "APITimeoutError" (lit "Request timed out."))
                end)
    (lit "Item 1. Business") 3 0
  = (Return (JDict [(lit "text_segments", JList [])]), 0 + 3).
Proof.
  apply (@single_chunk_exhausted
           (fun n _ => match n with
                       | 2 => Reply (JDict [(lit "text_segments", JList [])])
                       | _ => Failure (Exn "APITimeoutError" (lit "Request timed out."))
                       end)
           (lit "Item 1. Business") 3 0).
  - lia.
  - intros i Hi. destruct i as [|[|[|i]]]; try reflexivity; lia.
Defined.

Lemma validate_result_some result more result' :
  validate_result result more = Return (Some result') ->
  result' = result /\ countable_segments result.
Proof.
  unfold validate_result, countable_segments, segments_or_empty.
  destruct result as [| b | z | t | l | d]; try discriminate.
  cbn [py_get bind].
  destruct (negb _ && more); [discriminate|].
  destruct (py_len _) as [len|e] eqn:El; [|discriminate].
  cbn [bind]. intros H. inversion H; subst. eauto.
Qed.

Lemma empty_result_countable : countable_segments empty_result.
Proof. exists [(lit "structured_data", JDict []); (lit "text_segments", JList [])], 0. auto. Qed.

Lemma extract_attempts_validated svc text max_retries :
  no_token_errors svc text ->
  forall remaining attempt n,
    attempt + remaining = max_retries -> 1 <= remaining ->
    exists v n',
      extract_attempts svc text max_retries remaining attempt n = (Return v, n') /\
      n < n' <= n + remaining /\ countable_segments v.
Proof.
  intros Hno. induction remaining as [|r IH]; intros attempt n Hsum Hpos; [lia|].
  assert (Hretry : 1 <= r ->
            exists v n',
              extract_attempts svc text max_retries r (S attempt) (S n) = (Return v, n') /\
              n < n' <= n + S r /\ countable_segments v).
  { intros Hr. destruct (IH (S attempt) (S n) ltac:(lia) Hr) as (v & n' & E & B & P).
    exists v, n'. split; [exact E|]. split; [lia | exact P]. }
  assert (Hnow : exists v n',
            (Return empty_result, S n) = (Return v, n') /\
            n < n' <= n + S r /\ countable_segments v).
  { exists empty_result, (S n). split; [reflexivity|]. split; [lia|].
    apply empty_result_countable. }
  cbn [extract_attempts].
  destruct (Nat.ltb_spec attempt (max_retries - 1)) as [Hmore|Hlast].
  - assert (Hr : 1 <= r) by lia.
    destruct (svc n text) as [result|e] eqn:Es.
    + destruct (validate_result result true) as [[result'|]|e] eqn:Ev.
      * apply validate_result_some in Ev. destruct Ev as [-> Hc].
        exists result, (S n). split; [reflexivity|]. split; [lia | exact Hc].
      * now apply Hretry.
      * rewrite (validate_result_raise _ _ Ev). now apply Hretry.
    + destruct (is_json_decode_error e) eqn:Ej; [now apply Hretry|].
      rewrite (Hno _ _ Es Ej). now apply Hretry.
  - destruct (svc n text) as [result|e] eqn:Es.
    + destruct (validate_result result false) as [[result'|]|e] eqn:Ev.
      * apply validate_result_some in Ev. destruct Ev as [-> Hc].
        exists result, (S n). split; [reflexivity|]. split; [lia | exact Hc].
      * unfold validate_result in Ev.
        destruct (py_get result (lit "text_segments") JNull); [|discriminate].
        cbn [bind] in Ev. rewrite andb_false_r in Ev.
        destruct (py_get result (lit "text_segments") (JList [])); [|discriminate].
        cbn [bind] in Ev. destruct (py_len a0); discriminate.
      * rewrite (validate_result_raise _ _ Ev). exact Hnow.
    + destruct (is_json_decode_error e) eqn:Ej; [exact Hnow|].
      rewrite (Hno _ _ Es Ej). exact Hnow.
Qed.

(** X8: in single mode (text within the size threshold, no error message that
    reroutes to chunked mode) [llm_extract] never raises; with
    [max_retries >= 1] it makes between one and [max_retries] requests and
    returns an object whose [text_segments], when present, is a list, a string
    or an object, never [null] or a number. *)
Theorem single_mode_returns_validated
    (svc : service) (text : str) (max_retries n : nat) :
  (estimate_tokens text <= 100000)%Z ->
  no_token_errors svc text ->
  1 <= max_retries ->
  exists v n',
    llm_extract svc text max_retries n = (Return v, n') /\
    n < n' <= n + max_retries /\ countable_segments v.
Proof.
  intros Hsize Hno Hpos. unfold llm_extract.
  destruct (Z.ltb_spec 100000 (estimate_tokens text)); [lia|].
  now apply extract_attempts_validated.
Qed.

Lemma single_mode_returns_validated_witness :
  exists v n',
    llm_extract (fun _ _ => Reply (JDict [(lit "text_segments", JNum 7)]))
                (lit "Item 1. Business") 3 0 = (Return v, n') /\
    0 < n' <= 0 + 3 /\ countable_segments v.
Proof.
  apply single_mode_returns_validated.
  - vm_compute. discriminate.
  - intros i e H. discriminate.
  - lia.
Defined.

Lemma extract_attempts_all_fail svc text max_retries :
  forall remaining attempt n,
    attempt + remaining = max_retries -> 1 <= remaining ->
    (forall i, i < remaining ->
       exists e, svc (n + i) text = Failure e /\
                 (is_json_decode_error e = true \/ mentions_token_limit (exn_msg e) = false)) ->
    extract_attempts svc text max_retries remaining attempt n
    = (Return empty_result, n + remaining).
Proof.
  induction remaining as [|r IH]; intros attempt n Hsum Hpos Hfail; [lia|].
  cbn [extract_attempts].
  destruct (Hfail 0 ltac:(lia)) as [e [Es Hc]]. rewrite Nat.add_0_r in Es. rewrite Es.
  assert (Hstep : (if attempt <? max_retries - 1
                   then extract_attempts svc text max_retries r (S attempt) (S n)
                   else (Return empty_result, S n))
                  = (Return empty_result, n + S r)).
  { destruct (Nat.ltb_spec attempt (max_retries - 1)) as [Hmore|Hlast].
    - rewrite (IH (S attempt) (S n)); try lia.
      + f_equal. lia.
      + intros i Hi. replace (S n + i) with (n + S i) by lia. apply Hfail. lia.
    - f_equal. lia. }
  destruct Hc as [Hj|Ht].
  - rewrite Hj. exact Hstep.
  - rewrite Ht. destruct (is_json_decode_error e); exact Hstep.
Qed.

(** X9: in single mode, when each of the [max_retries] requests fails, by a
    JSON parse error or by any exception whose message does not mention
    "token", [llm_extract] returns the empty result after exactly
    [max_retries] requests. *)
Theorem single_mode_exhausted (svc : service) (text : str) (max_retries n : nat) :
  (estimate_tokens text <= 100000)%Z ->
  1 <= max_retries ->
  (forall i, i < max_retries ->
     exists e, svc (n + i) text = Failure e /\
               (is_json_decode_error e = true \/ mentions_token_limit (exn_msg e) = false)) ->
  llm_extract svc text max_retries n = (Return empty_result, n + max_retries).
Proof.
  intros Hsize Hpos Hfail. unfold llm_extract.
  destruct (Z.ltb_spec 100000 (estimate_tokens text)); [lia|].
  now apply extract_attempts_all_fail.
Qed.

Lemma single_mode_exhausted_witness :
  llm_extract (fun _ _ => Failure (Exn "JSONDecodeError" (lit "Expecting value")))
              (lit "Item 1. Business") 3 0
  = (Return empty_result, 0 + 3).
Proof.
  apply single_mode_exhausted.
  - vm_compute. discriminate.
  - lia.
  - intros i Hi. eexists. split; [reflexivity|]. left. reflexivity.
Defined.

(** * Further properties of the chunked mode and the aggregator *)

Lemma merge_structured_keeps_lists items : forall all all',
  all_lists all -> merge_structured all items = Return all' -> all_lists all'.
Proof.
  induction items as [|[key value] rest IH]; intros all all' Ha E.
  - simpl in E. inversion E; subst. exact Ha.
  - rewrite merge_structured_cons in E.
    destruct (merge_entry_spec key value Ha) as (all1 & E1 & Ha1 & _).
    rewrite E1 in E. cbn [bind] in E. exact (IH _ _ Ha1 E).
Qed.

Lemma merge_structured_returns items : forall all,
  all_lists all -> exists all', merge_structured all items = Return all'.
Proof.
  induction items as [|[key value] rest IH]; intros all Ha.
  - simpl. eauto.
  - rewrite merge_structured_cons.
    destruct (merge_entry_spec key value Ha) as (all1 & E1 & Ha1 & _).
    rewrite E1. cbn [bind]. exact (IH _ Ha1).
Qed.

Lemma merge_result_keeps_lists acc result acc' :
  all_lists (fst acc) -> merge_result acc result = Return acc' -> all_lists (fst acc').
Proof.
  intros Ha. unfold merge_result.
  destruct (py_get result (lit "structured_data") (JDict [])) as [structured|e];
    [|discriminate].
  cbn [bind]. destruct (py_items structured) as [items|e]; [|discriminate].
  cbn [bind]. destruct (merge_structured (fst acc) items) as [all'|e] eqn:Em;
    [|discriminate].
  cbn [bind]. destruct (py_get result (lit "text_segments") (JList [])) as [segments|e];
    [|discriminate].
  cbn [bind]. destruct (py_iter segments) as [segs|e]; [|discriminate].
  cbn [bind]. intros H. inversion H; subst. simpl.
  exact (merge_structured_keeps_lists _ Ha Em).
Qed.

Lemma chunked_loop_keeps_lists svc chunks : forall acc n acc' n',
  all_lists (fst acc) ->
  chunked_loop svc chunks acc n = (Return acc', n') ->
  all_lists (fst acc').
Proof.
  induction chunks as [|chunk rest IH]; intros acc n acc' n' Ha E.
  - simpl in E. inversion E; subst. exact Ha.
  - cbn [chunked_loop] in E.
    destruct (_llm_extract_single_chunk svc chunk 3 n) as [[result|e] n1]; [|discriminate].
    destruct (merge_result acc result) as [acc1|e] eqn:Em; [|discriminate].
    exact (IH _ _ _ _ (merge_result_keeps_lists _ _ Ha Em) E).
Qed.

(** X10: whatever the service answers, a result returned by the chunked mode
    is an object with exactly the keys [structured_data] and [text_segments],
    and every value under [structured_data] is a list. *)
Theorem chunked_result_is_list_shaped
    (svc : service) (text : str) (n n' : nat) (v : json) :
  llm_extract_chunked svc text n = (Return v, n') ->
  exists sd segs,
    v = extraction_result sd segs /\
    forall key value, dict_get sd key = Some value -> exists l, value = JList l.
Proof.
  unfold llm_extract_chunked.
  destruct (split_text_into_chunks text 100000) as [chunks|e]; [|discriminate].
  destruct (chunked_loop svc chunks ([], []) n) as [[acc|e] n1] eqn:El; [|discriminate].
  cbn [bind]. intros H. inversion H; subst.
  exists (fst acc), (snd acc). split; [reflexivity|].
  intros key value Hg.
  assert (Ha : all_lists (fst acc)).
  { eapply chunked_loop_keeps_lists; [|exact El]. constructor. }
  exact (all_lists_get _ Ha Hg).
Qed.

Lemma chunked_result_is_list_shaped_witness :
  exists sd segs,
    extraction_result
      [(lit "global_trade", JList [JDict [(lit "total_revenue", JNum 5)]])]
      [JStr (lit "s")]
    = extraction_result sd segs /\
    forall key value, dict_get sd key = Some value -> exists l, value = JList l.
Proof.
  apply (@chunked_result_is_list_shaped
           (fun _ _ => Reply (extraction_result
                                [(lit "global_trade", JDict [(lit "total_revenue", JNum 5)])]
                                [JStr (lit "s")]))
           (lit "Item 1. Business") 0 1).
  reflexivity.
Defined.

(** X11: merging the reply object [d] of a chunk into an accumulator raises
    exactly when its [structured_data] is present and not an object, or its
    [text_segments] is [null], a boolean or a number. *)
Theorem merge_raises_iff (acc : dict json * list json) (d : dict json) :
  all_lists (fst acc) ->
  ((exists e, merge_result acc (JDict d) = Raise e)
   <-> bad_structured d || bad_segments d = true).
Proof.
  intros Ha. unfold merge_result, bad_structured, bad_segments. cbn [py_get bind].
  destruct (dict_get d (lit "structured_data")) as [[| b | z | t | l | sd]|] eqn:Es;
    cbn [py_items bind orb];
    try (split; [reflexivity | intros _; eexists; reflexivity]).
  - destruct (merge_structured_returns sd Ha) as [all' ->]. cbn [bind].
    destruct (dict_get d (lit "text_segments")) as [[| b | z | t | l | sg]|];
      cbn [py_iter bind];
      (split; [intros [e H]; first [discriminate H | reflexivity]
              | intros H; first [discriminate H | eexists; reflexivity]]).
  - destruct (@merge_structured_returns [] (fst acc) Ha) as [all' ->]. cbn [bind].
    destruct (dict_get d (lit "text_segments")) as [[| b | z | t | l | sg]|];
      cbn [py_iter bind];
      (split; [intros [e H]; first [discriminate H | reflexivity]
              | intros H; first [discriminate H | eexists; reflexivity]]).
Qed.

Lemma merge_raises_iff_witness :
  (exists e,
     merge_result ([], [])
       (JDict [(lit "structured_data", JDict []); (lit "text_segments", JNull)])
     = Raise e)
  <-> bad_structured [(lit "structured_data", JDict []); (lit "text_segments", JNull)]
      || bad_segments [(lit "structured_data", JDict []); (lit "text_segments", JNull)]
      = true.
Proof. apply merge_raises_iff. constructor. Defined.

Lemma contributions_unmentioned key rs : mentions key rs = false -> contributions key rs = [].
Proof.
  induction rs as [|r rs IH]; [reflexivity|]. simpl.
  destruct (dict_get (fst r) key); [discriminate|]. simpl. exact IH.
Qed.

Lemma merge_results_law rs : forall all segs0,
  Forall (fun r => NoDup (map fst (fst r))) rs -> all_lists all ->
  exists all',
    merge_results (all, segs0) (map (fun r => extraction_result (fst r) (snd r)) rs)
    = Return (all', segs0 ++ concat (map snd rs)) /\
    forall key,
      dict_get all' key
      = if mentions key rs then Some (JList (prior all key ++ contributions key rs))
        else dict_get all key.
Proof.
  induction rs as [|[sd segs] rs IH]; intros all segs0 Hwf Ha.
  - exists all. simpl. rewrite app_nil_r. auto.
  - inversion Hwf as [|? ? Hnd Hrest]; subst. simpl in Hnd.
    destruct (@merge_result_spec all segs0 sd segs Hnd Ha) as (all1 & E1 & Ha1 & G1).
    destruct (IH all1 (segs0 ++ segs) Hrest Ha1) as (all' & E' & G').
    exists all'. split.
    + cbn [map fst snd]. rewrite merge_results_cons, E1. cbn [bind].
      rewrite E'. now rewrite <- app_assoc.
    + intros key. rewrite G'. unfold prior. rewrite G1.
      cbn [mentions contributions existsb flat_map fst].
      fold (mentions key rs). fold (contributions key rs).
      destruct (dict_get sd key) as [value|]; cbn [orb].
      * destruct (mentions key rs) eqn:Em.
        -- now rewrite <- app_assoc.
        -- now rewrite (contributions_unmentioned _ _ Em), app_nil_r.
      * reflexivity.
Qed.

(** X12: merging any number of well-formed results gives, for every key, the
    list of what the results hold under that key, in input order: the
    elements of list values, and each value of another shape as one element;
    a key no result holds is absent; the text segments are concatenated in
    input order. *)
Theorem merge_law (rs : list (dict json * list json)) :
  Forall (fun r => NoDup (map fst (fst r))) rs ->
  exists all,
    merge_results ([], []) (map (fun r => extraction_result (fst r) (snd r)) rs)
    = Return (all, concat (map snd rs)) /\
    forall key,
      dict_get all key
      = if mentions key rs then Some (JList (contributions key rs)) else None.
Proof.
  intros Hwf.
  destruct (@merge_results_law rs [] [] Hwf (Forall_nil _)) as (all & E & G).
  exists all. split; [exact E|]. intros key. rewrite G. reflexivity.
Qed.

Lemma merge_law_witness :
  let rs := [([(lit "global_trade", JDict [(lit "total_revenue", JNum 5)])],
              [JStr (lit "s1")]);
             ([(lit "policy_impacts", JList [])], []);
             ([(lit "global_trade", JList [JNum 1; JNum 2])], [JStr (lit "s2")])] in
  exists all,
    merge_results ([], []) (map (fun r => extraction_result (fst r) (snd r)) rs)
    = Return (all, concat (map snd rs)) /\
    forall key,
      dict_get all key
      = if mentions key rs then Some (JList (contributions key rs)) else None.
Proof.
  intros rs. apply merge_law.
  repeat constructor; simpl; intros [].
Defined.

Lemma chunked_loop_requests svc chunks : forall acc n,
  n <= snd (chunked_loop svc chunks acc n) <= n + 3 * length chunks.
Proof.
  induction chunks as [|chunk rest IH]; intros acc n.
  - simpl. lia.
  - cbn [chunked_loop length].
    destruct (@single_chunk_attempts_bounds svc chunk 3 3 0 n eq_refl ltac:(lia))
      as (v & n1 & E & B & _).
    unfold _llm_extract_single_chunk. rewrite E.
    destruct (merge_result acc v) as [acc1|e].
    + specialize (IH acc1 n1). lia.
    + simpl. lia.
Qed.

(** X13: the chunked mode never makes more than three requests per chunk: at
    most three times the number of chunks in all, whatever the service
    answers. *)
Theorem chunked_mode_requests (svc : service) (text : str) (n : nat) (chunks : list str) :
  split_text_into_chunks text 100000 = Return chunks ->
  n <= snd (llm_extract_chunked svc text n) <= n + 3 * length chunks.
Proof.
  intros E. unfold llm_extract_chunked. rewrite E.
  pose proof (chunked_loop_requests svc chunks ([], []) n) as B.
  destruct (chunked_loop svc chunks ([], []) n) as [r n1]. exact B.
Qed.

Lemma chunked_mode_requests_witness :
  0 <= snd (llm_extract_chunked rate_limited_once (lit "Item 1. Business") 0)
    <= 0 + 3 * length [lit "Item 1. Business"].
Proof. apply chunked_mode_requests. reflexivity. Defined.

(** X14: in chunked mode, when the chunks are answered in turn by well-formed
    results, the result returned holds their text segments concatenated in
    chunk order and the merged structured data. *)
Theorem chunked_mode_merges_replies
    (svc : service) (text : str) (n : nat) (chunks : list str)
    (rs : list (dict json * list json)) :
  split_text_into_chunks text 100000 = Return chunks ->
  answered svc n chunks (map (fun r => extraction_result (fst r) (snd r)) rs) ->
  Forall (fun r => NoDup (map fst (fst r))) rs ->
  exists all,
    fst (llm_extract_chunked svc text n)
    = Return (extraction_result all (concat (map snd rs))) /\
    forall key,
      dict_get all key
      = if mentions key rs then Some (JList (contributions key rs)) else None.
Proof.
  intros E Hans Hwf.
  destruct (@merge_results_law rs [] [] Hwf (Forall_nil _)) as (all & Em & G).
  exists all. split; [|intros key; rewrite G; reflexivity].
  unfold llm_extract_chunked. rewrite E.
  pose proof (chunked_loop_merges Hans ([], [])) as Hl.
  destruct (chunked_loop svc chunks ([], []) n) as [r n1].
  simpl in Hl. subst r. cbn [fst].
  unfold dict in *. rewrite Em. reflexivity.
Qed.

Lemma chunked_mode_merges_replies_witness :
  let reply := ([(lit "foreign_investments", JList [JStr (lit "plant in Vietnam")])],
                [JStr (lit "We opened a plant in Vietnam.")]) in
  exists all,
    fst (llm_extract_chunked
           (fun _ _ => Reply (extraction_result (fst reply) (snd reply)))
           (lit "Item 1. Business") 0)
    = Return (extraction_result all (concat (map snd [reply]))) /\
    forall key,
      dict_get all key
      = if mentions key [reply] then Some (JList (contributions key [reply])) else None.
Proof.
  intros reply.
  apply chunked_mode_merges_replies with (chunks := [lit "Item 1. Business"]).
  - reflexivity.
  - econstructor; [reflexivity | constructor].
  - repeat constructor. intros [].
Defined.

(** * File-name metadata *)

Import Metadata.

Lemma split_on_nonempty sep t : split_on sep t <> [].
Proof.
  destruct t as [|c t]; simpl; [discriminate|].
  destruct (Ascii.eqb c sep); [discriminate | apply cons_head_nonempty].
Qed.

Lemma split_on_plain sep t :
  Forall (fun c => c <> sep) t -> split_on sep t = [t].
Proof.
  induction 1 as [|c t Hc _ IH]; [reflexivity|]. simpl.
  destruct (Ascii.eqb_spec c sep); [contradiction|]. now rewrite IH.
Qed.

Lemma split_on_app sep p t :
  Forall (fun c => c <> sep) p ->
  split_on sep (p ++ sep :: t) = p :: split_on sep t.
Proof.
  induction 1 as [|c p Hc _ IH]; simpl.
  - now rewrite Ascii.eqb_refl.
  - destruct (Ascii.eqb_spec c sep); [contradiction|]. now rewrite IH.
Qed.

(** Splitting undoes joining when no part holds the separator. *)
Lemma split_on_join_on sep ps :
  ps <> [] ->
  Forall (Forall (fun c => c <> sep)) ps ->
  split_on sep (join_on sep ps) = ps.
Proof.
  intros Hne Hall. induction Hall as [|p ps Hp Hps IH]; [congruence|].
  destruct ps as [|q ps].
  - simpl. now apply split_on_plain.
  - change (join_on sep (p :: q :: ps)) with (p ++ sep :: join_on sep (q :: ps)).
    rewrite split_on_app by assumption. rewrite IH by discriminate. reflexivity.
Qed.

Lemma split_on_length sep t :
  length (split_on sep t) = S (count_occ ascii_dec t sep).
Proof.
  induction t as [|c t IH]; [reflexivity|]. simpl.
  destruct (Ascii.eqb_spec c sep) as [->|Hne].
  - destruct (ascii_dec sep sep); [|congruence]. simpl. now rewrite IH.
  - destruct (ascii_dec c sep); [contradiction|].
    rewrite <- IH. destruct (split_on sep t) eqn:E; [|reflexivity].
    now destruct (split_on_nonempty sep t).
Qed.

(** X15: a file name built as
    [cik_fiscalyearend_ticker_name words_formtype_reportdate], with at least
    one name word and no underscore inside a field, is read back field by
    field: the company name is the name words joined by spaces, the form type
    is dropped, and the year is [int] of the fiscal year end up to its first
    hyphen (the call raises when [int] does). *)
Theorem extract_metadata_round_trip
    (py_int : str -> outcome Z)
    (cik fiscal_year_end ticker form_type report_date : str) (name : list str) :
  name <> [] ->
  Forall (Forall (fun c => c <> underscore))
         ([cik; fiscal_year_end; ticker] ++ name ++ [form_type; report_date]) ->
  extract_metadata py_int
    (join_on underscore
       ([cik; fiscal_year_end; ticker] ++ name ++ [form_type; report_date]))
  = (data_year <- py_int (nth 0 (split_on hyphen fiscal_year_end) []) ;;
     Return {| md_cik := cik;
               md_fiscal_year_end := fiscal_year_end;
               md_ticker := ticker;
               md_company_name := join_space name;
               md_report_date := report_date;
               md_data_year := data_year;
               md_needs_ticker_resolution := needs_resolution ticker |}).
Proof.
  intros Hname Hclean. unfold extract_metadata.
  rewrite split_on_join_on by (assumption || discriminate).
  assert (Hlen : length ([cik; fiscal_year_end; ticker] ++ name ++ [form_type; report_date])
                 = length name + 5)
    by (rewrite !length_app; simpl; lia).
  rewrite Hlen.
  destruct (Nat.leb_spec 6 (length name + 5)) as [_|H];
    [|destruct name; [congruence | simpl in H; lia]].
  replace (length name + 5 - 2 - 3) with (length name) by lia.
  assert (Hlast : nth (length name + 5 - 1)
                      ([cik; fiscal_year_end; ticker] ++ name ++ [form_type; report_date]) []
                  = report_date).
  { replace (length name + 5 - 1) with (S (S (S (length name + 1)))) by lia.
    cbn [app nth]. rewrite app_nth2 by lia.
    replace (length name + 1 - length name) with 1 by lia. reflexivity. }
  rewrite Hlast. cbn [app nth skipn].
  rewrite firstn_app, firstn_all, Nat.sub_diag, app_nil_r. reflexivity.
Qed.

Lemma extract_metadata_round_trip_witness :
  extract_metadata (fun _ => Return 2020%Z)
    (join_on underscore
       ([lit "0000320193"; lit "2020-09-26"; lit "AAPL"]
        ++ [lit "Apple"; lit "Inc"] ++ [lit "10-K"; lit "2020-10-30"]))
  = (data_year <- (fun _ => Return 2020%Z) (nth 0 (split_on hyphen (lit "2020-09-26")) []) ;;
     Return {| md_cik := lit "0000320193";
               md_fiscal_year_end := lit "2020-09-26";
               md_ticker := lit "AAPL";
               md_company_name := join_space [lit "Apple"; lit "Inc"];
               md_report_date := lit "2020-10-30";
               md_data_year := data_year;
               md_needs_ticker_resolution := needs_resolution (lit "AAPL") |}).
Proof.
  apply (@extract_metadata_round_trip (fun _ => Return 2020%Z)).
  - discriminate.
  - repeat constructor; discriminate.
Defined.

(** X16: a file name with fewer than five underscores is never parsed: the
    fallback record is returned without calling [int], with the first ten
    characters of the name as ticker, ticker resolution requested, and the
    year 2025, for which the store has no tables. *)
Theorem extract_metadata_fallback (py_int : str -> outcome Z) (filename : str) :
  count_occ ascii_dec filename underscore < 5 ->
  extract_metadata py_int filename = Return (fallback_metadata filename) /\
  md_ticker (fallback_metadata filename) = firstn 10 filename /\
  md_needs_ticker_resolution (fallback_metadata filename) = true /\
  ~ In (md_data_year (fallback_metadata filename)) YEARS.
Proof.
  intros Hfew. split; [|split; [reflexivity|split; [reflexivity|]]].
  - unfold extract_metadata. rewrite split_on_length.
    destruct (Nat.leb_spec 6 (S (count_occ ascii_dec filename underscore)));
      [lia | reflexivity].
  - unfold YEARS. simpl md_data_year. intros Hin.
    apply in_map_iff in Hin. destruct Hin as [y [Hy Hin]].
    apply in_seq in Hin. lia.
Qed.

Lemma extract_metadata_fallback_witness :
  extract_metadata (fun _ => Return 0%Z) (lit "apple_10k_2020")
  = Return (fallback_metadata (lit "apple_10k_2020")) /\
  md_ticker (fallback_metadata (lit "apple_10k_2020")) = firstn 10 (lit "apple_10k_2020") /\
  md_needs_ticker_resolution (fallback_metadata (lit "apple_10k_2020")) = true /\
  ~ In (md_data_year (fallback_metadata (lit "apple_10k_2020"))) YEARS.
Proof. apply extract_metadata_fallback. vm_compute. lia. Defined.

(** * Further properties of the TF-IDF engine *)

Lemma dict_set_keys (V : Type) (d : dict V) key v k' :
  In k' (map fst (dict_set d key v)) -> In k' (map fst d) \/ k' = key.
Proof.
  induction d as [|[k0 v0] d IH]; simpl.
  - intros [H|[]]. now right.
  - destruct (str_eqb k0 key) eqn:E; simpl.
    + tauto.
    + intros [H|H]; [tauto|]. destruct (IH H); tauto.
Qed.

Lemma dict_set_NoDup (V : Type) (d : dict V) key v :
  NoDup (map fst d) -> NoDup (map fst (dict_set d key v)).
Proof.
  induction d as [|[k0 v0] d IH]; simpl; intros Hnd.
  - constructor; [intros [] | constructor].
  - inversion Hnd as [|? ? Hnotin Hrest]; subst.
    destruct (str_eqb k0 key) eqn:E; simpl.
    + constructor; assumption.
    + constructor; [|now apply IH].
      intros Hin. destruct (dict_set_keys _ _ _ _ Hin) as [H|H]; [contradiction|].
      subst. rewrite str_eqb_refl in E. discriminate.
Qed.


Import Weights.

Section TFIDFMore.

Open Scope R_scope.

Variable texts : list str.

Lemma build_year_tfidf_weights keywords :
  Forall (entry_weights texts) (build_year_tfidf texts keywords).
Proof.
  unfold build_year_tfidf.
  assert (G : forall d, Forall (entry_weights texts) d ->
                        Forall (entry_weights texts) (fold_left (add_keyword texts) keywords d)).
  { induction keywords as [|kw kws IH]; intros d Hd; simpl; [assumption|].
    apply IH. unfold add_keyword.
    destruct (Rlt_dec 0 _); [|assumption].
    apply dict_set_Forall; [assumption|]. unfold entry_weights. simpl. auto. }
  apply G. constructor.
Qed.

Lemma build_year_tfidf_NoDup keywords :
  NoDup (map fst (build_year_tfidf texts keywords)).
Proof.
  unfold build_year_tfidf.
  assert (G : forall d, NoDup (map fst d) ->
                        NoDup (map fst (fold_left (add_keyword texts) keywords d))).
  { induction keywords as [|kw kws IH]; intros d Hd; simpl; [assumption|].
    apply IH. unfold add_keyword.
    destruct (Rlt_dec 0 _); [|assumption]. now apply dict_set_NoDup. }
  apply G. constructor.
Qed.

(** A key is in [year_tfidf] after the loop when it was there before or some
    keyword of the loop has it as lower-case form and a positive weight. *)
Lemma fold_add_keyword_present keywords : forall d key,
  dict_get (fold_left (add_keyword texts) keywords d) key <> None
  <-> (dict_get d key <> None
       \/ ((exists kw, In kw keywords /\ lower (kw_keyword kw) = key)
           /\ 0 < keyword_tf texts key * keyword_idf texts key)).
Proof.
  induction keywords as [|kw kws IH]; intros d key; simpl.
  - split; [tauto|]. intros [H|[[kw [[] _]] _]]. exact H.
  - rewrite IH. unfold add_keyword.
    destruct (Rlt_dec 0 _) as [Hpos|Hneg].
    + rewrite dict_get_set.
      destruct (str_eqb (lower (kw_keyword kw)) key) eqn:E.
      * apply str_eqb_eq in E. subst key. split; [|intros _; left; discriminate].
        intros _. right. split; [exists kw; auto | exact Hpos].
      * split.
        -- intros [H|[[kw' [Hin Hk]] Hp]]; [tauto|]. right. split; [|exact Hp].
           exists kw'. auto.
        -- intros [H|[[kw' [[->|Hin] Hk]] Hp]]; [tauto| |].
           ++ rewrite Hk, str_eqb_refl in E. discriminate.
           ++ right. split; [exists kw'; auto | exact Hp].
    + split.
      * intros [H|[[kw' [Hin Hk]] Hp]]; [tauto|]. right. split; [|exact Hp].
        exists kw'. auto.
      * intros [H|[[kw' [[->|Hin] Hk]] Hp]]; [tauto| |].
        -- subst key. contradiction.
        -- right. split; [exists kw'; auto | exact Hp].
Qed.

Lemma segment_count_le kw_text : (segment_count texts kw_text <= length texts)%nat.
Proof. unfold segment_count. apply filter_length_le. Qed.

Lemma keyword_tf_nonneg kw_text : 0 <= keyword_tf texts kw_text.
Proof.
  unfold keyword_tf. destruct (Nat.ltb_spec 0 (count_words (full_corpus texts))); [|lra].
  apply Rmult_le_pos; [apply pos_INR|].
  left. apply Rinv_0_lt_compat. now apply lt_0_INR.
Qed.

Lemma keyword_idf_nonneg kw_text : 0 <= keyword_idf texts kw_text.
Proof.
  unfold keyword_idf.
  destruct (Nat.ltb_spec 0 (segment_count texts kw_text)) as [Hpos|]; [|lra].
  pose proof (segment_count_le kw_text) as Hle.
  assert (Hs : 0 < INR (segment_count texts kw_text)) by now apply lt_0_INR.
  assert (H1 : 1 <= INR (length texts) / INR (segment_count texts kw_text)).
  { apply (Rmult_le_reg_r (INR (segment_count texts kw_text))); [assumption|].
    unfold Rdiv. rewrite Rmult_assoc, Rinv_l by lra. rewrite Rmult_1_l, Rmult_1_r.
    now apply le_INR. }
  rewrite <- ln_1. destruct H1 as [H1|H1].
  - left. apply ln_increasing; lra.
  - rewrite <- H1. lra.
Qed.

(** A keyword found in every segment has idf [ln 1 = 0]. *)
Lemma keyword_idf_everywhere kw_text :
  Forall (fun text => contains (lower text) kw_text = true) texts ->
  keyword_idf texts kw_text = 0.
Proof.
  intros Hall. unfold keyword_idf.
  assert (Hc : segment_count texts kw_text = length texts).
  { unfold segment_count. induction Hall as [|t ts Ht _ IH]; [reflexivity|].
    simpl. rewrite Ht. simpl. now rewrite IH. }
  rewrite Hc. destruct (Nat.ltb_spec 0 (length texts)) as [Hpos|]; [|reflexivity].
  unfold Rdiv. rewrite Rinv_r; [apply ln_1|].
  apply not_0_INR. lia.
Qed.

End TFIDFMore.

Section TFIDFExtras.

Open Scope R_scope.

(** X17: tf and idf are never negative, and a keyword of the list has an
    entry in the year's keyword set exactly when its tf and its idf are both
    positive. *)
Theorem year_keyword_set (texts : list str) (keywords : list keyword_rec)
    (kw : keyword_rec) :
  In kw keywords ->
  0 <= keyword_tf texts (lower (kw_keyword kw)) /\
  0 <= keyword_idf texts (lower (kw_keyword kw)) /\
  (dict_get (build_year_tfidf texts keywords) (lower (kw_keyword kw)) <> None
   <-> 0 < keyword_tf texts (lower (kw_keyword kw))
       /\ 0 < keyword_idf texts (lower (kw_keyword kw))).
Proof.
  intros Hin.
  pose proof (keyword_tf_nonneg texts (lower (kw_keyword kw))) as Htf.
  pose proof (keyword_idf_nonneg texts (lower (kw_keyword kw))) as Hidf.
  split; [exact Htf|]. split; [exact Hidf|].
  unfold build_year_tfidf. rewrite fold_add_keyword_present. simpl. split.
  - intros [H|[_ Hpos]]; [congruence|]. split; nra.
  - intros [H1 H2]. right. split; [exists kw; auto|]. now apply Rmult_lt_0_compat.
Qed.

Lemma year_keyword_set_witness :
  0 <= keyword_tf (all_texts example_year) (lower (lit "China")) /\
  0 <= keyword_idf (all_texts example_year) (lower (lit "China")) /\
  (dict_get (build_year_tfidf (all_texts example_year) example_keywords)
            (lower (lit "China")) <> None
   <-> 0 < keyword_tf (all_texts example_year) (lower (lit "China"))
       /\ 0 < keyword_idf (all_texts example_year) (lower (lit "China"))).
Proof.
  apply (@year_keyword_set (all_texts example_year) example_keywords
           {| kw_keyword := lit "China"; kw_category := lit "china_positive" |}).
  left. reflexivity.
Defined.




(** X19: every row carries the weights of its keyword over the whole year,
    whatever the company: its tf and idf are those of the keyword in the
    year's corpus, and its tfidf is their product. *)
Theorem tfidf_rows_year_wide (db : year_tables) (keywords : list keyword_rec)
    (row : tfidf_row) :
  In row (calculate_tfidf_for_year db keywords) ->
  tf row = keyword_tf (all_texts db) (keyword row) /\
  idf row = keyword_idf (all_texts db) (keyword row) /\
  tfidf row = tf row * idf row.
Proof.
  intros Hin. unfold calculate_tfidf_for_year in Hin.
  destruct (all_texts db) as [|t0 ts] eqn:Et; [destruct Hin|].
  destruct (get_companies_by_year db) as [|c0 cs] eqn:Ec; [destruct Hin|].
  apply in_flat_map in Hin. destruct Hin as (tk & _ & Hin).
  unfold company_rows in Hin. apply in_map_iff in Hin.
  destruct Hin as (kv & <- & Hin). apply filter_In in Hin. destruct Hin as [Hin _].
  pose proof (build_year_tfidf_weights (t0 :: ts) keywords) as Hw.
  rewrite Forall_forall in Hw. exact (Hw _ Hin).
Qed.

Lemma tfidf_rows_year_wide_witness :
  Forall (fun row =>
            tf row = keyword_tf (all_texts example_year) (keyword row) /\
            idf row = keyword_idf (all_texts example_year) (keyword row) /\
            tfidf row = tf row * idf row)
         (calculate_tfidf_for_year example_year example_keywords).
Proof.
  apply Forall_forall. intros row Hin.
  exact (tfidf_rows_year_wide example_year example_keywords row Hin).
Defined.

End TFIDFExtras.

(** Where a row comes from: its ticker is a company of the year, its keyword
    has an entry in [year_tfidf] and occurs in the company's text. *)
Lemma calculate_tfidf_for_year_row db keywords row :
  In row (calculate_tfidf_for_year db keywords) ->
  In (ticker row) (get_companies_by_year db) /\
  (exists e, In (keyword row, e) (build_year_tfidf (all_texts db) keywords)) /\
  contains (lower (join_space (get_company_corpus_texts db (ticker row)))) (keyword row)
  = true.
Proof.
  unfold calculate_tfidf_for_year.
  destruct (all_texts db) as [|t0 ts] eqn:Et; [intros []|].
  destruct (get_companies_by_year db) as [|c0 cs] eqn:Ec; [intros []|].
  intros Hin. apply in_flat_map in Hin. destruct Hin as (tk & Htk & Hin).
  unfold company_rows in Hin. apply in_map_iff in Hin.
  destruct Hin as ([key e] & <- & Hin). apply filter_In in Hin.
  simpl in *. destruct Hin as [Hin Hc]. eauto.
Qed.

Lemma filter_keys_NoDup (V : Type) (f : str * V -> bool) (d : dict V) :
  NoDup (map fst d) -> NoDup (map fst (filter f d)).
Proof.
  induction d as [|kv d IH]; simpl; intros Hnd; [constructor|].
  inversion Hnd as [|? ? Hnotin Hrest]; subst.
  destruct (f kv); simpl; [|now apply IH].
  constructor; [|now apply IH].
  intros Hin. apply Hnotin. apply in_map_iff in Hin.
  destruct Hin as (kv' & Hk & Hin). apply filter_In in Hin.
  apply in_map_iff. exists kv'. tauto.
Qed.

Lemma company_rows_keys db year_tfidf tk :
  map (fun row => (ticker row, keyword row)) (company_rows db year_tfidf tk)
  = map (fun key => (tk, key))
        (map fst (filter (fun kv => contains
                                      (lower (join_space (get_company_corpus_texts db tk)))
                                      (fst kv))
                         year_tfidf)).
Proof. unfold company_rows. rewrite !map_map. reflexivity. Qed.

Lemma NoDup_map_pair (A B : Type) (a : A) (l : list B) :
  NoDup l -> NoDup (map (fun b => (a, b)) l).
Proof.
  induction 1 as [|b l Hnotin _ IH]; simpl; constructor; [|exact IH].
  intros Hin. apply in_map_iff in Hin. destruct Hin as (b' & E & Hin).
  inversion E; subst. contradiction.
Qed.

Lemma company_rows_NoDup db year_tfidf tk :
  NoDup (map fst year_tfidf) ->
  NoDup (map (fun row => (ticker row, keyword row)) (company_rows db year_tfidf tk)).
Proof.
  intros Hnd. rewrite company_rows_keys.
  apply NoDup_map_pair. now apply filter_keys_NoDup.
Qed.

Lemma company_rows_ticker db year_tfidf tk row :
  In row (company_rows db year_tfidf tk) -> ticker row = tk.
Proof.
  unfold company_rows. intros Hin. apply in_map_iff in Hin.
  destruct Hin as (kv & <- & _). reflexivity.
Qed.

Lemma all_rows_NoDup db year_tfidf tickers :
  NoDup (map fst year_tfidf) -> NoDup tickers ->
  NoDup (map (fun row => (ticker row, keyword row))
             (flat_map (company_rows db year_tfidf) tickers)).
Proof.
  intros Hkeys Hnd. induction Hnd as [|tk tks Hnotin Hrest IH]; [constructor|].
  cbn [flat_map]. rewrite map_app. apply NoDup_app.
  - now apply company_rows_NoDup.
  - exact IH.
  - intros [t key] Hin1 Hin2.
    apply in_map_iff in Hin1. destruct Hin1 as (r1 & E1 & Hr1).
    apply in_map_iff in Hin2. destruct Hin2 as (r2 & E2 & Hr2).
    apply company_rows_ticker in Hr1.
    apply in_flat_map in Hr2. destruct Hr2 as (tk2 & Htk2 & Hr2).
    apply company_rows_ticker in Hr2.
    inversion E1; inversion E2; subst. congruence.
Qed.

Section TFIDFExtras2.

Open Scope R_scope.

(** X20: when the companies of the year are distinct, no two emitted rows
    have the same ticker and keyword. *)
Theorem tfidf_rows_distinct (db : year_tables) (keywords : list keyword_rec) :
  NoDup (get_companies_by_year db) ->
  NoDup (map (fun row => (ticker row, keyword row))
             (calculate_tfidf_for_year db keywords)).
Proof.
  intros Hnd. unfold calculate_tfidf_for_year.
  destruct (all_texts db) as [|t0 ts] eqn:Et; [constructor|].
  destruct (get_companies_by_year db) as [|c0 cs] eqn:Ec; [constructor|].
  apply all_rows_NoDup; [apply build_year_tfidf_NoDup | exact Hnd].
Qed.

Lemma tfidf_rows_distinct_witness :
  NoDup (map (fun row => (ticker row, keyword row))
             (calculate_tfidf_for_year example_year
                (example_keywords
                 ++ [ {| kw_keyword := lit "CHINA"; kw_category := lit "china_negative" |} ]))).
Proof.
  apply tfidf_rows_distinct. constructor; [intros [] | constructor].
Defined.

Lemma keyword_idf_single_segment t key : keyword_idf [t] key = 0.
Proof.
  unfold keyword_idf, segment_count. simpl.
  destruct (contains (lower t) key); simpl; [|reflexivity].
  unfold Rdiv. rewrite Rinv_r by lra. apply ln_1.
Qed.

Lemma fold_add_keyword_nothing texts keywords :
  (forall key, keyword_idf texts key = 0) ->
  build_year_tfidf texts keywords = [].
Proof.
  intros Hz. unfold build_year_tfidf.
  induction keywords as [|kw kws IH]; [reflexivity|].
  simpl. unfold add_keyword at 2. rewrite Hz, Rmult_0_r.
  destruct (Rlt_dec 0 0); [lra | exact IH].
Qed.

(** X21: a keyword that occurs in every segment of the year has idf 0 and no
    row carries it; and a year whose corpus is a single segment yields no row
    at all, whatever the keywords and the companies. *)
Theorem ubiquitous_keyword_has_no_rows (db : year_tables) (keywords : list keyword_rec) :
  (forall key,
     Forall (fun text => contains (lower text) key = true) (all_texts db) ->
     keyword_idf (all_texts db) key = 0 /\
     forall row, In row (calculate_tfidf_for_year db keywords) -> keyword row <> key) /\
  (length (all_texts db) = 1%nat -> calculate_tfidf_for_year db keywords = []).
Proof.
  split.
  - intros key Hall.
    pose proof (@keyword_idf_everywhere (all_texts db) key Hall) as Hidf.
    split; [exact Hidf|].
    intros row Hin Hk.
    destruct (calculate_tfidf_for_year_row _ _ _ Hin) as (_ & [e He] & _).
    pose proof (build_year_tfidf_ok (all_texts db) keywords) as Hok.
    rewrite Forall_forall in Hok. destruct (Hok _ He) as (_ & Hw & Hpos).
    simpl in Hw, Hpos. rewrite Hw, Hk, Hidf in Hpos. lra.
  - intros Hone. unfold calculate_tfidf_for_year.
    destruct (all_texts db) as [|t [|t' ts]] eqn:Et; try discriminate.
    destruct (get_companies_by_year db) as [|c0 cs]; [reflexivity|].
    rewrite fold_add_keyword_nothing by apply keyword_idf_single_segment.
    induction (c0 :: cs) as [|c l IH]; [reflexivity|]. simpl. exact IH.
Qed.

Lemma ubiquitous_keyword_has_no_rows_witness :
  let db := {| companies := [lit "ACME"];
               corpus := [(lit "ACME", lit "China expansion plan for China")];
               tfidf_scores := [] |} in
  length (all_texts db) = 1%nat /\
  calculate_tfidf_for_year db example_keywords = [].
Proof.
  intros db. split; [reflexivity|].
  apply (proj2 (ubiquitous_keyword_has_no_rows db example_keywords)). reflexivity.
Defined.

Lemma contains_nil key : contains [] key = true -> key = [].
Proof. destruct key; [reflexivity | discriminate]. Qed.

Lemma contains_empty t : contains t [] = true.
Proof. destruct t; reflexivity. Qed.

(** X22: a company of the year that has no corpus segment gets no TF-IDF
    row. *)
Theorem company_without_text_has_no_rows
    (db : year_tables) (keywords : list keyword_rec) (tk : str) :
  get_company_corpus_texts db tk = [] ->
  forall row, In row (calculate_tfidf_for_year db keywords) -> ticker row <> tk.
Proof.
  intros Hnone row Hin Ht.
  destruct (calculate_tfidf_for_year_row _ _ _ Hin) as (_ & [e He] & Hc).
  rewrite Ht, Hnone in Hc. simpl in Hc. apply contains_nil in Hc.
  pose proof (build_year_tfidf_ok (all_texts db) keywords) as Hok.
  rewrite Forall_forall in Hok. destruct (Hok _ He) as (_ & Hw & Hpos).
  simpl in Hw, Hpos. rewrite Hc in Hw.
  rewrite (@keyword_idf_everywhere (all_texts db) []) in Hw.
  - lra.
  - apply Forall_forall. intros t _. apply contains_empty.
Qed.

Lemma company_without_text_has_no_rows_witness :
  let db := {| companies := [lit "ACME"; lit "IDLE"];
               corpus := [(lit "ACME", lit "China expansion plan");
                          (lit "ACME", lit "other markets")];
               tfidf_scores := [] |} in
  get_company_corpus_texts db (lit "IDLE") = [] /\
  Forall (fun row => ticker row <> lit "IDLE")
         (calculate_tfidf_for_year db example_keywords).
Proof.
  intros db. split; [reflexivity|]. apply Forall_forall.
  apply (@company_without_text_has_no_rows db example_keywords (lit "IDLE")).
  reflexivity.
Defined.

End TFIDFExtras2.

(** * Further properties of the score engine *)

Import Year.



Section ScoreExtras.

Open Scope R_scope.

Lemma clamp_reflect d : clamp (50 + d) + clamp (50 - d) = 100.
Proof.
  unfold clamp, Rmax, Rmin.
  destruct (Rle_dec 100 (50 + d)); destruct (Rle_dec 100 (50 - d));
    repeat match goal with |- context [Rle_dec 0 ?b] => destruct (Rle_dec 0 b) end; lra.
Qed.

Lemma nss_score_reflect p n total : nss_score p n total + nss_score n p total = 100.
Proof.
  unfold nss_score.
  replace (n / total - p / total) with (- (p / total - n / total)) by lra.
  replace (n / total + p / total + eps) with (p / total + n / total + eps) by lra.
  set (den := p / total + n / total + eps).
  set (num := p / total - n / total).
  replace (50 + ((- num / den + 1) * 50 - 50) * density_factor total)
    with (50 - ((num / den + 1) * 50 - 50) * density_factor total)
    by (unfold Rdiv; lra).
  apply clamp_reflect.
Qed.

(** X24: swapping the expansion and contraction sums of a company, its
    total unchanged, reflects its investment attitude score about 50: the two
    scores add up to 100, whatever the other sums and the statistics of the
    year. Likewise, on its own, for the China score when the China-positive
    and China-negative sums are swapped. *)
Theorem attitude_score_reflection (m sd m' sd' : R) (s s' : raw_scores) :
  total_tfidf s' = total_tfidf s ->
  (expansion_score s' = contraction_score s ->
   contraction_score s' = expansion_score s ->
   investment_attitude_score (final_scores m sd s)
   + investment_attitude_score (final_scores m' sd' s') = 100) /\
  (china_positive_score s' = china_negative_score s ->
   china_negative_score s' = china_positive_score s ->
   china_investment_score (final_scores m sd s)
   + china_investment_score (final_scores m' sd' s') = 100).
Proof.
  intros Ht. unfold final_scores. simpl. rewrite Ht.
  split; intros H1 H2; rewrite H1, H2; apply nss_score_reflect.
Qed.

Lemma attitude_score_reflection_witness :
  let s := calculate_company_scores (lit "A")
             [row_of "A" "expansion" (8 / 10); row_of "A" "contraction" (1 / 10);
              row_of "A" "china_positive" (3 / 10); row_of "A" "china_negative" (1 / 10)] in
  let s' := calculate_company_scores (lit "A")
              [row_of "A" "contraction" (8 / 10); row_of "A" "expansion" (1 / 10);
               row_of "A" "china_positive" (3 / 10); row_of "A" "china_negative" (1 / 10)] in
  let s'' := calculate_company_scores (lit "A")
               [row_of "A" "expansion" (8 / 10); row_of "A" "contraction" (1 / 10);
                row_of "A" "china_negative" (3 / 10); row_of "A" "china_positive" (1 / 10)] in
  investment_attitude_score (final_scores 0 1 s)
  + investment_attitude_score (final_scores (1 / 2) 2 s') = 100 /\
  china_investment_score (final_scores 0 1 s)
  + china_investment_score (final_scores (1 / 2) 2 s'') = 100.
Proof.
  intros s s' s''. split.
  - apply (@attitude_score_reflection 0 1 (1 / 2) 2 s s');
      unfold s, s', calculate_company_scores, category_sum, py_sum, row_of; simpl; lra.
  - apply (@attitude_score_reflection 0 1 (1 / 2) 2 s s'');
      unfold s, s'', calculate_company_scores, category_sum, py_sum, row_of; simpl; lra.
Defined.

Lemma nss_score_sign p n total :
  0 <= p -> 0 <= n -> 0 < total ->
  (n < p -> 50 < nss_score p n total) /\
  (p = n -> nss_score p n total = 50) /\
  (p < n -> nss_score p n total < 50).
Proof.
  intros Hp Hn Ht. split; [|split].
  - intros H. now apply nss_score_positive.
  - intros ->. apply nss_score_balanced.
  - intros H. pose proof (nss_score_reflect p n total).
    pose proof (@nss_score_positive n p total Hp H Ht). lra.
Qed.

(** X25: with non-negative TF-IDF values, a company's investment attitude
    score is above, at or below 50 according to whether its expansion sum is
    above, equal to or below its contraction sum; likewise its China score
    for the China-positive and China-negative sums. *)
Theorem scores_follow_balance (db : year_tables) (q : quant_score) :
  valid_rows (tfidf_scores db) ->
  In q (calculate_scores_for_year db) ->
  ((qs_contraction_score q < qs_expansion_score q -> 50 < investment_attitude_score q) /\
   (qs_expansion_score q = qs_contraction_score q -> investment_attitude_score q = 50) /\
   (qs_expansion_score q < qs_contraction_score q -> investment_attitude_score q < 50)) /\
  ((qs_china_negative_score q < qs_china_positive_score q -> 50 < china_investment_score q) /\
   (qs_china_positive_score q = qs_china_negative_score q -> china_investment_score q = 50) /\
   (qs_china_positive_score q < qs_china_negative_score q -> china_investment_score q < 50)).
Proof.
  intros Hv Hq.
  destruct (calculate_scores_for_year_inv db q Hq) as (tk & m & sd & _ & _ & ->).
  pose proof (calculate_company_scores_valid tk (get_tfidf_scores_valid db tk Hv)) as Hs.
  set (s := calculate_company_scores tk (get_tfidf_scores db tk)) in *.
  pose proof (valid_raw_total_pos Hs) as Ht.
  destruct Hs as (H1 & H2 & H3 & H4 & H5 & _). clearbody s.
  unfold final_scores. simpl. split; now apply nss_score_sign.
Qed.

Lemma scores_follow_balance_witness :
  let db := tables_of ["A"%string]
              [row_of "A" "contraction" (3 / 10); row_of "A" "expansion" (1 / 10)] in
  valid_rows (tfidf_scores db) /\
  length (calculate_scores_for_year db) = 1%nat /\
  Forall (fun q =>
    ((qs_contraction_score q < qs_expansion_score q -> 50 < investment_attitude_score q) /\
     (qs_expansion_score q = qs_contraction_score q -> investment_attitude_score q = 50) /\
     (qs_expansion_score q < qs_contraction_score q -> investment_attitude_score q < 50)) /\
    ((qs_china_negative_score q < qs_china_positive_score q -> 50 < china_investment_score q) /\
     (qs_china_positive_score q = qs_china_negative_score q -> china_investment_score q = 50) /\
     (qs_china_positive_score q < qs_china_negative_score q -> china_investment_score q < 50)))
    (calculate_scores_for_year db).
Proof.
  intros db.
  assert (Hv : valid_rows (tfidf_scores db)) by (repeat constructor; simpl; lra).
  split; [exact Hv|]. split; [reflexivity|].
  apply Forall_forall. intros q Hq. exact (scores_follow_balance db q Hv Hq).
Defined.

End ScoreExtras.

Section ScoreExtras2.

Open Scope R_scope.

Lemma py_sum_app xs ys : py_sum (xs ++ ys) = py_sum xs + py_sum ys.
Proof.
  induction xs as [|x xs IH]; simpl.
  - unfold py_sum at 2. simpl. lra.
  - rewrite !py_sum_cons, IH. lra.
Qed.

Lemma category_sum_app rows rows' cat :
  category_sum (rows ++ rows') cat = category_sum rows cat + category_sum rows' cat.
Proof. unfold category_sum. now rewrite filter_app, map_app, py_sum_app. Qed.

Lemma category_sum_unscored rows cat :
  Forall (fun row => str_eqb (keyword_category row) cat = false) rows ->
  category_sum rows cat = 0.
Proof.
  intros H. unfold category_sum.
  induction H as [|row rows Hr _ IH]; [reflexivity|].
  simpl. now rewrite Hr.
Qed.

(** X26: rows whose category is none of the five scored categories change
    nothing but the keyword count: the five sums and the total are those of
    the other rows. *)
Theorem unscored_categories_only_count (tk : str) (rows others : list tfidf_row) :
  Forall (fun row => scored_category (keyword_category row) = false) others ->
  calculate_company_scores tk (rows ++ others)
  = {| rs_ticker := tk;
       expansion_score := expansion_score (calculate_company_scores tk rows);
       contraction_score := contraction_score (calculate_company_scores tk rows);
       china_positive_score := china_positive_score (calculate_company_scores tk rows);
       china_negative_score := china_negative_score (calculate_company_scores tk rows);
       non_china_raw_score := non_china_raw_score (calculate_company_scores tk rows);
       total_tfidf := total_tfidf (calculate_company_scores tk rows);
       total_keywords_count := length rows + length others |}.
Proof.
  intros Hother.
  assert (Hz : forall cat, scored_category cat = true -> category_sum others cat = 0).
  { intros cat Hcat. apply category_sum_unscored.
    eapply Forall_impl; [|exact Hother]. simpl. intros row Hrow.
    destruct (str_eqb (keyword_category row) cat) eqn:E; [|reflexivity].
    apply str_eqb_eq in E. congruence. }
  unfold calculate_company_scores. simpl.
  rewrite !category_sum_app, !Hz by reflexivity.
  rewrite length_app, !Rplus_0_r. reflexivity.
Qed.

Lemma unscored_categories_only_count_witness :
  let rows := [row_of "A" "expansion" (8 / 10)] in
  let others := [row_of "A" "unknown" (5 / 10)] in
  calculate_company_scores (lit "A") (rows ++ others)
  = {| rs_ticker := lit "A";
       expansion_score := expansion_score (calculate_company_scores (lit "A") rows);
       contraction_score := contraction_score (calculate_company_scores (lit "A") rows);
       china_positive_score := china_positive_score (calculate_company_scores (lit "A") rows);
       china_negative_score := china_negative_score (calculate_company_scores (lit "A") rows);
       non_china_raw_score := non_china_raw_score (calculate_company_scores (lit "A") rows);
       total_tfidf := total_tfidf (calculate_company_scores (lit "A") rows);
       total_keywords_count := length rows + length others |}.
Proof.
  intros rows others. apply unscored_categories_only_count.
  repeat constructor.
Defined.

(** X27: with non-negative TF-IDF values the two saved densities are
    non-negative and add up to less than 100: they are shares of the
    company's total mass, which includes [eps]. *)
Theorem densities_are_shares (db : year_tables) (q : quant_score) :
  valid_rows (tfidf_scores db) ->
  In q (calculate_scores_for_year db) ->
  0 <= china_investment_density q /\
  0 <= non_china_investment_density q /\
  china_investment_density q + non_china_investment_density q < 100.
Proof.
  intros Hv Hq.
  destruct (calculate_scores_for_year_inv db q Hq) as (tk & m & sd & _ & _ & ->).
  pose proof (calculate_company_scores_valid tk (get_tfidf_scores_valid db tk Hv)) as Hs.
  set (s := calculate_company_scores tk (get_tfidf_scores db tk)) in *.
  pose proof (valid_raw_total_pos Hs) as Ht.
  destruct Hs as (H1 & H2 & H3 & H4 & H5 & Htot). clearbody s.
  unfold final_scores. simpl.
  split; [now apply density_nonneg|]. split; [now apply density_nonneg|].
  pose proof eps_pos as He.
  assert (Hsum : (china_positive_score s + non_china_raw_score s) / total_tfidf s < 1).
  { apply (Rmult_lt_reg_r (total_tfidf s)); [assumption|].
    unfold Rdiv. rewrite Rmult_assoc, Rinv_l by lra. lra. }
  unfold Rdiv in *. lra.
Qed.

Lemma densities_are_shares_witness :
  let db := tables_of ["A"%string]
              [row_of "A" "china_positive" (3 / 10); row_of "A" "non_china_regions" (1 / 10)] in
  valid_rows (tfidf_scores db) /\
  length (calculate_scores_for_year db) = 1%nat /\
  Forall (fun q =>
            0 <= china_investment_density q /\
            0 <= non_china_investment_density q /\
            china_investment_density q + non_china_investment_density q < 100)
         (calculate_scores_for_year db).
Proof.
  intros db.
  assert (Hv : valid_rows (tfidf_scores db)) by (repeat constructor; simpl; lra).
  split; [exact Hv|]. split; [reflexivity|].
  apply Forall_forall. intros q Hq. exact (densities_are_shares db q Hv Hq).
Defined.






Lemma np_mean_single x : np_mean [x] = x.
Proof. unfold np_mean, py_sum. simpl. lra. Qed.

(** X29: when a single company of the year is scored, its non-China score
    is exactly 50. *)
Theorem single_company_non_china_neutral (db : year_tables) (q : quant_score) :
  calculate_scores_for_year db = [q] ->
  non_china_investment_score q = 50.
Proof.
  unfold calculate_scores_for_year. intros E.
  destruct (collect_raw_scores db) as [|s [|s' rest]]; try discriminate.
  simpl in E. inversion E as [Eq]. rewrite np_mean_single.
  unfold final_scores. simpl.
  replace (non_china_raw_score s / total_tfidf s - non_china_raw_score s / total_tfidf s)
    with 0 by lra.
  unfold Rdiv at 1. rewrite Rmult_0_l, Rmult_0_l, Rplus_0_l.
  apply clamp_id. lra.
Qed.

Lemma single_company_non_china_neutral_witness :
  let db := tables_of ["A"%string] [row_of "A" "non_china_regions" (3 / 10)] in
  length (calculate_scores_for_year db) = 1%nat /\
  Forall (fun q => non_china_investment_score q = 50) (calculate_scores_for_year db).
Proof.
  intros db. split; [reflexivity|].
  assert (E : exists q, calculate_scores_for_year db = [q]) by (eexists; reflexivity).
  destruct E as (q & E). rewrite E. constructor; [|constructor].
  exact (single_company_non_china_neutral db E).
Defined.

End ScoreExtras2.
